(** * Screen-Scout: the crawl controller of [screenshot.js]

    A shallow embedding of [findLinks] and [takeScreenshots] (the version
    with the [followExternal] option) and of the small pieces of the
    JavaScript platform they rely on, followed by the properties of the
    traversal: page cap, single rendering, depth bound, termination,
    link filtering and failure containment.

    Conventions.
    - URLs are strings, exactly as in the script.
    - [currentDepth] is an integer ([Z]), counted up from 1 in steps of 1;
      the size of a set is a natural number.  [depth] and [maxPages] are integers in [Config] and
      [takeScreenshots], which is the script on options that are whole
      numbers; they are JavaScript numbers ([JsNumber]: a fraction, [NaN] or
      an infinity as well) in [Argv], [takeScreenshots_js] and [script],
      which is the script on whatever the command line gives.
    - The [visited] set is a [gset string]: the script only uses [size],
      [has] and [add] on it.  The [uniqueLinks] set of [findLinks] is
      iterated, so it is kept as a list in insertion order.
    - Puppeteer is the environment ([Env]): whether the viewport can be
      set, and what loading and capturing a URL yields.
    - A call returns the new [visited] set, the events it produced, in
      order, and how it completed ([Normal] or [Throw]); [None] means that
      the fuel of the model ran out: a call that is [None] with every fuel
      does not return. *)

From stdpp Require Import gmap strings list pretty.
From Stdlib Require Import ZArith QArith Qround String Ascii Lia.

Open Scope string_scope.
Open Scope Z_scope.

(** ** JavaScript strings *)

Module Js.

(** [s.startsWith(p)] *)
Definition startsWith (s p : string) : bool := String.prefix p s.

(** [s.split(sep)] for a one-character separator. *)
Fixpoint split (sep : ascii) (s : string) : list string :=
  match s with
  | EmptyString => [EmptyString]
  | String c s' =>
      if Ascii.eqb c sep then EmptyString :: split sep s'
      else match split sep s' with
           | p :: ps => String c p :: ps
           | [] => [String c EmptyString]
           end
  end.

Definition is_space (c : ascii) : bool :=
  let n := nat_of_ascii c in
  (Nat.eqb n 32 || (Nat.leb 9 n && Nat.leb n 13))%bool.

Fixpoint skip_spaces (s : string) : string :=
  match s with
  | String c s' => if is_space c then skip_spaces s' else s
  | EmptyString => s
  end.

Definition digit_of (c : ascii) : option Z :=
  let n := nat_of_ascii c in
  if (Nat.leb 48 n && Nat.leb n 57)%bool then Some (Z.of_nat (n - 48)) else None.

(** The value of the longest prefix of decimal digits, read after [acc]. *)
Fixpoint digits (acc : Z) (s : string) : Z :=
  match s with
  | String c s' =>
      match digit_of c with
      | Some d => digits (10 * acc + d) s'
      | None => acc
      end
  | EmptyString => acc
  end.

Definition unsigned_int (s : string) : option Z :=
  match s with
  | String c _ => match digit_of c with Some _ => Some (digits 0 s) | None => None end
  | EmptyString => None
  end.

(** [parseInt(s, 10)]; [None] stands for [NaN].  The result is the value
    of the digits as an integer: it is the JavaScript number that
    [parseInt] returns as long as it is at most 2^53 in absolute value,
    beyond which a JavaScript number is rounded. *)
Definition parseInt (s : string) : option Z :=
  match skip_spaces s with
  | String "-" s' => Z.opp <$> unsigned_int s'
  | String "+" s' => unsigned_int s'
  | s' => unsigned_int s'
  end.

Definition lower (c : ascii) : ascii :=
  let n := nat_of_ascii c in
  if (Nat.leb 65 n && Nat.leb n 90)%bool then ascii_of_nat (n + 32) else c.

Fixpoint toLowerCase (s : string) : string :=
  match s with
  | String c s' => String (lower c) (toLowerCase s')
  | EmptyString => EmptyString
  end.

(** The characters of [s] before the first one satisfying [stop]. *)
Fixpoint before (stop : ascii -> bool) (s : string) : string :=
  match s with
  | String c s' => if stop c then EmptyString else String c (before stop s')
  | EmptyString => EmptyString
  end.

(** The rest of [s] from the first character satisfying [stop] on. *)
Fixpoint from (stop : ascii -> bool) (s : string) : string :=
  match s with
  | String c s' => if stop c then s else from stop s'
  | EmptyString => EmptyString
  end.

Fixpoint skip_slashes (s : string) : string :=
  match s with
  | String "/" s' => skip_slashes s'
  | _ => s
  end.

Fixpoint has_at (s : string) : bool :=
  match s with
  | String c s' => (Ascii.eqb c "@" || has_at s')%bool
  | EmptyString => false
  end.

(** What follows the last ["@"] of an authority (the whole of it when
    there is none): the credentials are not part of the origin. *)
Fixpoint after_userinfo (s : string) : string :=
  match s with
  | String _ s' => if has_at s then after_userinfo s' else s
  | EmptyString => EmptyString
  end.

Fixpoint strip_suffix (suf s : string) : string :=
  match s with
  | String c s' => if String.eqb s suf then EmptyString else String c (strip_suffix suf s')
  | EmptyString => EmptyString
  end.

Definition path_start (c : ascii) : bool :=
  (Ascii.eqb c "/" || Ascii.eqb c "?" || Ascii.eqb c "#")%bool.

(** [new URL(u).origin] for the URLs a crawl meets.  An [http] or [https]
    URL has the origin [scheme://host] followed by [:port] when the port
    is not the default one; the scheme and the host are lower-cased and
    credentials are dropped.  A URL of another scheme has the opaque
    origin ["null"].  A string without a scheme is not a URL: the
    constructor throws ([None]).

    This reads the text of the URL and is the origin that the URL parser
    gives for [http] and [https] URLs written in the usual way: a host of
    letters, digits, dots and hyphens, and a port, if any, in decimal
    without leading zeros.  The parser does more: it trims spaces, reads
    a backslash as a slash, drops leading zeros of a port, encodes
    international host names, refuses some hosts and ports, and gives
    [ftp], [ws] and [wss] URLs an origin of their own. *)
Definition origin (u : string) : option string :=
  let is_colon := fun c => Ascii.eqb c ":" in
  match from is_colon u with
  | String _ rest =>
      let scheme := toLowerCase (before is_colon u) in
      if String.eqb scheme "" then None
      else if String.eqb scheme "http" || String.eqb scheme "https" then
        let authority := before path_start (skip_slashes rest) in
        let host := toLowerCase (after_userinfo authority) in
        let default_port := if String.eqb scheme "http" then ":80" else ":443" in
        Some (scheme ++ "://" ++ strip_suffix ":" (strip_suffix default_port host))
      else Some "null"
  | EmptyString => None
  end.

End Js.

Open Scope list_scope.

(** ** The crawl *)

(** What the script does, in the order it happens; every event carries
    the URL and the depth of the task it belongs to. *)
Inductive Event : Type :=
| EvCall (url : string) (d : Z)      (* takeScreenshots is entered *)
| EvClaim (url : string) (d : Z)     (* visited.add(targetUrl) *)
| EvSaved (url : string) (d : Z)     (* the screenshot or PDF is written *)
| EvLinks (url : string) (d : Z) (links : list string)  (* findLinks has returned *)
| EvError (url : string) (d : Z).    (* the catch block logs the error *)

Inductive Completion : Type := Normal | Throw.

(** Loading and capturing one URL: any of [launch], [newPage], [goto],
    [pdf] and [screenshot] may reject ([RenderFailed]); otherwise the file
    is written and the page is there to be asked for the [href] of its
    [a] elements, which [page.evaluate] returns or fails to ([None]). *)
Inductive Render : Type :=
| RenderFailed
| Captured (hrefs : option (list string)).

#[global] Instance Render_eq_dec : EqDecision Render.
Proof. solve_decision. Defined.

Record Env : Type := {
  (* page.setViewport({ width, height }) resolves *)
  setViewport : option Z -> option Z -> bool;
  (* launch, goto, capture and the anchors of the page *)
  render : string -> Render
}.

Record Config : Type := {
  resolution : string;
  depth : Z;
  maxPages : Z;
  followExternal : bool
}.

Definition Result : Type := gset string * list Event * Completion.

(** [uniqueLinks.add(href)] on a set kept in insertion order. *)
Definition set_add (href : string) (uniqueLinks : list string) : list string :=
  if bool_decide (href ∈ uniqueLinks) then uniqueLinks else uniqueLinks ++ [href].

(** [findLinks(page, base, followExternal)], on the [href]s of the [a]
    elements of the page. *)
Definition findLinks (hrefs : list string) (base : string) (followExternal : bool)
  : list string :=
  fold_left
    (fun uniqueLinks href =>
       if Js.startsWith href "http" then
         let isExternal := negb (Js.startsWith href base) in
         if followExternal || negb isExternal then set_add href uniqueLinks
         else uniqueLinks
       else uniqueLinks)
    hrefs [].

(** [const [width, height] = resolution.split('x').map(dim => parseInt(dim, 10))];
    [None] is [NaN] or [undefined]. *)
Definition viewport_of (resolution : string) : option Z * option Z :=
  let dims := map Js.parseInt (Js.split "x" resolution) in
  (default None (dims !! 0%nat), default None (dims !! 1%nat)).

(** [for (const link of links) { if (!visited.has(link)) { await call(link) } }]:
    a call that throws ends the loop. *)
Fixpoint for_of (call : string -> gset string -> option Result)
    (links : list string) (visited : gset string) : option Result :=
  match links with
  | [] => Some (visited, [], Normal)
  | link :: rest =>
      if bool_decide (link ∈ visited) then for_of call rest visited
      else
        match call link visited with
        | None => None
        | Some (visited1, tr1, Throw) => Some (visited1, tr1, Throw)
        | Some (visited1, tr1, Normal) =>
            match for_of call rest visited1 with
            | None => None
            | Some (visited2, tr2, c) => Some (visited2, tr1 ++ tr2, c)
            end
        end
  end.

Section Crawl.

Variable env : Env.
Variable cfg : Config.

(** The body of the [try] block, with [recur] for the recursive call.
    Whatever throws in it leaves [visited] as it is at that point.  The
    final [browser.close()] is taken to resolve. *)
Definition try_block (recur : string -> gset string -> Z -> option Result)
    (targetUrl : string) (visited : gset string) (currentDepth : Z)
  : option Result :=
  let visited := {[targetUrl]} ∪ visited in
  let claim := EvClaim targetUrl currentDepth in
  let '(width, height) := viewport_of (resolution cfg) in
  if negb (setViewport env width height) then Some (visited, [claim], Throw)
  else
    match render env targetUrl with
    | RenderFailed => Some (visited, [claim], Throw)
    | Captured hrefs =>
        let saved := EvSaved targetUrl currentDepth in
        if currentDepth <? depth cfg then
          match Js.origin targetUrl, hrefs with
          | Some base, Some hrefs =>
              let links := findLinks hrefs base (followExternal cfg) in
              match
                for_of (fun link visited => recur link visited (currentDepth + 1))
                  links visited
              with
              | None => None
              | Some (visited', tr, c) =>
                  Some (visited', claim :: saved :: EvLinks targetUrl currentDepth links :: tr, c)
              end
          | _, _ => Some (visited, [claim; saved], Throw)
          end
        else Some (visited, [claim; saved], Normal)
    end.

(** [visited.size >= maxPages || currentDepth > depth] *)
Definition limit_reached (visited : gset string) (currentDepth : Z) : bool :=
  (Z.of_nat (size visited) >=? maxPages cfg) || (currentDepth >? depth cfg).

(** [takeScreenshots(targetUrl, ..., visited, currentDepth)] *)
Fixpoint takeScreenshots (fuel : nat) (targetUrl : string)
    (visited : gset string) (currentDepth : Z) : option Result :=
  match fuel with
  | O => None
  | S fuel' =>
      let call := EvCall targetUrl currentDepth in
      if limit_reached visited currentDepth then Some (visited, [call], Normal)
      else
        match try_block (takeScreenshots fuel') targetUrl visited currentDepth with
        | None => None
        | Some (visited', tr, Normal) => Some (visited', call :: tr, Normal)
        | Some (visited', tr, Throw) =>
            Some (visited', call :: tr ++ [EvError targetUrl currentDepth], Normal)
        end
  end.

(** The main script: [takeScreenshots(argv.url, ...)] with the default
    [visited = new Set()] and [currentDepth = 1].  The depth to go bounds
    the nesting of the calls. *)
Definition main (seed : string) : option Result :=
  takeScreenshots (S (Z.to_nat (depth cfg))) seed ∅ 1.

End Crawl.

(** ** Reading a trace *)

(** The URLs inserted into [visited], in order. *)
Definition claimed (tr : list Event) : list string :=
  omap (fun e => match e with EvClaim u _ => Some u | _ => None end) tr.

(** The URLs whose capture was written, in order. *)
Definition saved (tr : list Event) : list string :=
  omap (fun e => match e with EvSaved u _ => Some u | _ => None end) tr.

(** The [visited] set of a run once the events [tr] have happened. *)
Definition visited_after (tr : list Event) : gset string :=
  list_to_set (claimed tr).

(** The task an event of the [try] block belongs to. *)
Definition in_task (e : Event) : option (string * Z) :=
  match e with
  | EvCall _ _ | EvClaim _ _ => None
  | EvSaved u d | EvLinks u d _ | EvError u d => Some (u, d)
  end.

(** Every event of a [try] block comes after the claim of its task,
    [seen] being the tasks claimed before [tr]. *)
Fixpoint announced (seen : list (string * Z)) (tr : list Event) : Prop :=
  match tr with
  | [] => True
  | EvClaim u d :: tr' => announced ((u, d) :: seen) tr'
  | e :: tr' =>
      match in_task e with
      | Some task => task ∈ seen /\ announced seen tr'
      | None => announced seen tr'
      end
  end.

Section Stages.

Variable env : Env.
Variable cfg : Config.

(** The outcome of the [try] block up to the loop over the links: it
    throws, before or after the capture was written; or the page is a leaf
    of the traversal; or its links are to be followed. *)
Inductive Visit : Type :=
| VThrow (written : bool)
| VLeaf
| VExpand (links : list string).

Definition visit (targetUrl : string) (currentDepth : Z) : Visit :=
  let '(width, height) := viewport_of (resolution cfg) in
  if negb (setViewport env width height) then VThrow false
  else
    match render env targetUrl with
    | RenderFailed => VThrow false
    | Captured hrefs =>
        if currentDepth <? depth cfg then
          match Js.origin targetUrl, hrefs with
          | Some base, Some hrefs => VExpand (findLinks hrefs base (followExternal cfg))
          | _, _ => VThrow true
          end
        else VLeaf
    end.

(** The viewport of the configured resolution can be set. *)
Definition viewport_ok : Prop :=
  let '(width, height) := viewport_of (resolution cfg) in
  setViewport env width height = true.

(** The events of a task, up to the loop over its links. *)
Definition task_events (targetUrl : string) (d : Z) (v : Visit) : list Event :=
  match v with
  | VThrow false => [EvCall targetUrl d; EvClaim targetUrl d; EvError targetUrl d]
  | VThrow true =>
      [EvCall targetUrl d; EvClaim targetUrl d; EvSaved targetUrl d; EvError targetUrl d]
  | VLeaf => [EvCall targetUrl d; EvClaim targetUrl d; EvSaved targetUrl d]
  | VExpand links =>
      [EvCall targetUrl d; EvClaim targetUrl d; EvSaved targetUrl d;
       EvLinks targetUrl d links]
  end.

(** What an event says about the run that [lo] and [hi] bound in depth. *)
Definition sound_event (lo hi : Z) (e : Event) : Prop :=
  match e with
  | EvCall _ d => lo <= d <= hi
  | EvClaim _ d => lo <= d <= depth cfg
  | EvSaved u d =>
      lo <= d <= depth cfg /\ render env u <> RenderFailed /\ viewport_ok
  | EvLinks u d links => lo <= d < depth cfg /\ visit u d = VExpand links
  | EvError u d => lo <= d <= depth cfg /\ exists written, visit u d = VThrow written
  end.

End Stages.

(** ** Sites to crawl *)

(** A browser that refuses a width or a height that is not a number. *)
Definition numeric_viewport (width height : option Z) : bool :=
  match width, height with
  | Some _, Some _ => true
  | _, _ => false
  end.

(** The pages of a site, each with the [href]s of its anchors; a URL that
    is not listed fails to load. *)
Fixpoint page_of (pages : list (string * list string)) (url : string) : Render :=
  match pages with
  | [] => RenderFailed
  | (u, hrefs) :: rest =>
      if String.eqb u url then Captured (Some hrefs) else page_of rest url
  end.

Definition site (pages : list (string * list string)) : Env :=
  {| setViewport := numeric_viewport; render := page_of pages |}.

Definition config (resolution : string) (depth maxPages : Z) (followExternal : bool)
  : Config :=
  {| resolution := resolution; depth := depth; maxPages := maxPages;
     followExternal := followExternal |}.




(** A page that links twice to the same URL of another site. *)
Definition repeated_site : Env :=
  site [("https://a.test/", ["https://b.test/p"; "https://a.test/q"; "https://b.test/p"])].

(** The trace of a run. *)
Definition trace_of (r : option Result) : option (list Event) :=
  (fun r => r.1.2) <$> r.

(** ** The first version of the script

    [findLinks] without the [followExternal] option, and the
    [takeScreenshots] that uses it. *)

(** [links.map(link => link.href).filter(href => href.startsWith('http'))] *)
Definition findLinks1 (hrefs : list string) : list string :=
  List.filter (fun href => Js.startsWith href "http") hrefs.

Section Crawl1.

Variable env : Env.
Variable cfg : Config.

Definition try_block1 (recur : string -> gset string -> Z -> option Result)
    (targetUrl : string) (visited : gset string) (currentDepth : Z)
  : option Result :=
  let visited := {[targetUrl]} ∪ visited in
  let claim := EvClaim targetUrl currentDepth in
  let '(width, height) := viewport_of (resolution cfg) in
  if negb (setViewport env width height) then Some (visited, [claim], Throw)
  else
    match render env targetUrl with
    | RenderFailed => Some (visited, [claim], Throw)
    | Captured hrefs =>
        let saved := EvSaved targetUrl currentDepth in
        if currentDepth <? depth cfg then
          match hrefs with
          | Some hrefs =>
              let links := findLinks1 hrefs in
              match
                for_of (fun link visited => recur link visited (currentDepth + 1))
                  links visited
              with
              | None => None
              | Some (visited', tr, c) =>
                  Some (visited', claim :: saved :: EvLinks targetUrl currentDepth links :: tr, c)
              end
          | None => Some (visited, [claim; saved], Throw)
          end
        else Some (visited, [claim; saved], Normal)
    end.

Fixpoint takeScreenshots1 (fuel : nat) (targetUrl : string)
    (visited : gset string) (currentDepth : Z) : option Result :=
  match fuel with
  | O => None
  | S fuel' =>
      let call := EvCall targetUrl currentDepth in
      if limit_reached cfg visited currentDepth then Some (visited, [call], Normal)
      else
        match try_block1 (takeScreenshots1 fuel') targetUrl visited currentDepth with
        | None => None
        | Some (visited', tr, Normal) => Some (visited', call :: tr, Normal)
        | Some (visited', tr, Throw) =>
            Some (visited', call :: tr ++ [EvError targetUrl currentDepth], Normal)
        end
  end.

Definition main1 (seed : string) : option Result :=
  takeScreenshots1 (S (Z.to_nat (depth cfg))) seed ∅ 1.

End Crawl1.

(** ** File names *)

(** The fields of [new URL(targetUrl)] that the script reads. *)
Record Url : Type := {
  hostname : string;
  pathname : string
}.

(** [s.replace(/[...]/g, by)] for a class [cls] of characters. *)
Fixpoint replace_all (cls : ascii -> bool) (by_ : ascii) (s : string) : string :=
  match s with
  | String c s' => String (if cls c then by_ else c) (replace_all cls by_ s')
  | EmptyString => EmptyString
  end.

(** [s.replace(/^\//, '')] *)
Definition strip_leading_slash (s : string) : string :=
  match s with
  | String "/" s' => s'
  | _ => s
  end.

Definition is_slash (c : ascii) : bool := Ascii.eqb c "/".

Definition is_colon_or_dot (c : ascii) : bool :=
  (Ascii.eqb c ":" || Ascii.eqb c ".")%bool.

(** [getFilenameFromUrl(targetUrl, fileType)], on [urlObj = new URL(targetUrl)]
    and [now = new Date().toISOString()]. *)
Definition getFilenameFromUrl (urlObj : Url) (now : string) (fileType : string)
  : string :=
  let pathName := replace_all is_slash "-" (strip_leading_slash (pathname urlObj)) in
  let timestamp := replace_all is_colon_or_dot "-" now in
  (hostname urlObj ++
   (if String.eqb pathName "" then "" else "-" ++ pathName) ++
   "_" ++ timestamp ++ "." ++ fileType)%string.

(** The characters of a string. *)
Fixpoint chars (s : string) : list ascii :=
  match s with
  | String c s' => c :: chars s'
  | EmptyString => []
  end.

(** ** Reading the links of a page *)

(** The two tests of [findLinks] on one link. *)
Definition kept (base : string) (followExternal : bool) (href : string) : bool :=
  Js.startsWith href "http" && (followExternal || Js.startsWith href base).

(** The elements of [l] that are not in [seen], each at its first
    occurrence. *)
Fixpoint uniq (seen : list string) (l : list string) : list string :=
  match l with
  | [] => []
  | x :: l' =>
      if bool_decide (x ∈ seen) then uniq seen l' else x :: uniq (seen ++ [x]) l'
  end.

(** ** The options as the command line gives them

    [yargs] hands [depth] and [maxPages] over as JavaScript numbers: any
    finite number, [NaN] or an infinity.  The finite ones are rationals
    here; the depth of a task and the size of [visited] are integers, and
    a comparison with [NaN] is false. *)

Inductive JsNumber : Type :=
| Num (q : Q)
| NaN
| PosInfinity
| NegInfinity.

(** The integer [z] as a number. *)
Definition Int (z : Z) : JsNumber := Num (inject_Z z).

(** [n >= m] *)
Definition js_ge (n : Z) (m : JsNumber) : bool :=
  match m with
  | Num q => Qle_bool q (inject_Z n)
  | NaN => false
  | PosInfinity => false
  | NegInfinity => true
  end.

(** [n > m] *)
Definition js_gt (n : Z) (m : JsNumber) : bool :=
  match m with
  | Num q => negb (Qle_bool (inject_Z n) q)
  | NaN => false
  | PosInfinity => false
  | NegInfinity => true
  end.

(** [n < m] *)
Definition js_lt (n : Z) (m : JsNumber) : bool :=
  match m with
  | Num q => negb (Qle_bool q (inject_Z n))
  | NaN => false
  | PosInfinity => true
  | NegInfinity => false
  end.

(** The options of the script, [argv]. *)
Record Argv : Type := {
  argv_url : string;
  argv_resolution : string;
  argv_type : string;
  argv_depth : JsNumber;
  argv_maxPages : JsNumber;
  argv_followExternal : bool
}.


Section CrawlJs.

Variable env : Env.
Variable argv : Argv.

(** [visited.size >= maxPages || currentDepth > depth] *)
Definition limit_reached_js (visited : gset string) (currentDepth : Z) : bool :=
  js_ge (Z.of_nat (size visited)) (argv_maxPages argv) ||
  js_gt currentDepth (argv_depth argv).

(** The body of the [try] block.  [new URL(targetUrl)] in
    [getFilenameFromUrl] throws on a string that is not a URL, before the
    capture is written. *)
Definition try_block_js (recur : string -> gset string -> Z -> option Result)
    (targetUrl : string) (visited : gset string) (currentDepth : Z)
  : option Result :=
  let visited := {[targetUrl]} ∪ visited in
  let claim := EvClaim targetUrl currentDepth in
  let '(width, height) := viewport_of (argv_resolution argv) in
  if negb (setViewport env width height) then Some (visited, [claim], Throw)
  else
    match render env targetUrl, Js.origin targetUrl with
    | RenderFailed, _ | _, None => Some (visited, [claim], Throw)
    | Captured hrefs, Some base =>
        let saved := EvSaved targetUrl currentDepth in
        if js_lt currentDepth (argv_depth argv) then
          match hrefs with
          | Some hrefs =>
              let links := findLinks hrefs base (argv_followExternal argv) in
              match
                for_of (fun link visited => recur link visited (currentDepth + 1))
                  links visited
              with
              | None => None
              | Some (visited', tr, c) =>
                  Some (visited', claim :: saved :: EvLinks targetUrl currentDepth links :: tr, c)
              end
          | None => Some (visited, [claim; saved], Throw)
          end
        else Some (visited, [claim; saved], Normal)
    end.

(** [takeScreenshots(targetUrl, ..., visited, currentDepth)] *)
Fixpoint takeScreenshots_js (fuel : nat) (targetUrl : string)
    (visited : gset string) (currentDepth : Z) : option Result :=
  match fuel with
  | O => None
  | S fuel' =>
      let call := EvCall targetUrl currentDepth in
      if limit_reached_js visited currentDepth then Some (visited, [call], Normal)
      else
        match try_block_js (takeScreenshots_js fuel') targetUrl visited currentDepth with
        | None => None
        | Some (visited', tr, Normal) => Some (visited', call :: tr, Normal)
        | Some (visited', tr, Throw) =>
            Some (visited', call :: tr ++ [EvError targetUrl currentDepth], Normal)
        end
  end.

(** The stages of a task, as [visit] has them. *)
Definition visit_js (targetUrl : string) (currentDepth : Z) : Visit :=
  let '(width, height) := viewport_of (argv_resolution argv) in
  if negb (setViewport env width height) then VThrow false
  else
    match render env targetUrl, Js.origin targetUrl with
    | RenderFailed, _ | _, None => VThrow false
    | Captured hrefs, Some base =>
        if js_lt currentDepth (argv_depth argv) then
          match hrefs with
          | Some hrefs => VExpand (findLinks hrefs base (argv_followExternal argv))
          | None => VThrow true
          end
        else VLeaf
    end.

(** The viewport of the resolution of [argv] can be set. *)
Definition viewport_ok_js : Prop :=
  let '(width, height) := viewport_of (argv_resolution argv) in
  setViewport env width height = true.

End CrawlJs.

(** How far the depth and the page cap are, in whole steps. *)
Definition depth_left (depth : JsNumber) (currentDepth : Z) : nat :=
  match depth with
  | Num q => Z.to_nat (Qceiling q - currentDepth)
  | _ => 0%nat
  end.

Definition pages_left (maxPages : JsNumber) (visited : gset string) : nat :=
  match maxPages with
  | Num q => Z.to_nat (Qceiling q - Z.of_nat (size visited))
  | _ => 0%nat
  end.

(** The depths that [currentDepth] can be counted up to.  The script
    adds 1 to [currentDepth] at every level; up to 2^53 a JavaScript
    number holds every whole number and the sum is exact, as it is here,
    and above 2^53 the sum no longer grows.  [NaN] and [-Infinity] are
    depths at which no link is followed. *)
Definition countable_depth (depth : JsNumber) : Prop :=
  match depth with
  | Num q => (q <= inject_Z (2 ^ 53))%Q
  | PosInfinity => False
  | NaN | NegInfinity => True
  end.



(** A site without end: every page has one link, to a new page. *)
Definition endless_site : Env :=
  {| setViewport := numeric_viewport;
     render := fun u => Captured (Some [(u ++ "a")%string]) |}.

(** The options of a run without limits: an infinite depth, no page cap. *)
Definition endless_argv : Argv :=
  {| argv_url := "https://a.test/"; argv_resolution := "1920x1080";
     argv_type := "png"; argv_depth := PosInfinity; argv_maxPages := NaN;
     argv_followExternal := true |}.

(** The options of a run on [url], with the default type. *)
Definition options (url resolution : string) (depth maxPages : JsNumber)
    (followExternal : bool) : Argv :=
  {| argv_url := url; argv_resolution := resolution; argv_type := "png";
     argv_depth := depth; argv_maxPages := maxPages;
     argv_followExternal := followExternal |}.

(** ** How a call unfolds *)

#[local] Set Warnings "-clear-no-such-hyp".

Section Unfolding.

Variable env : Env.
Variable cfg : Config.

Lemma try_block_visit recur t v d :
  try_block env cfg recur t v d =
  match visit env cfg t d with
  | VThrow false => Some ({[t]} ∪ v, [EvClaim t d], Throw)
  | VThrow true => Some ({[t]} ∪ v, [EvClaim t d; EvSaved t d], Throw)
  | VLeaf => Some ({[t]} ∪ v, [EvClaim t d; EvSaved t d], Normal)
  | VExpand links =>
      match for_of (fun link visited => recur link visited (d + 1)) links ({[t]} ∪ v) with
      | None => None
      | Some (v', tr, c) =>
          Some (v', EvClaim t d :: EvSaved t d :: EvLinks t d links :: tr, c)
      end
  end.
Proof.
  unfold try_block, visit.
  destruct (viewport_of (resolution cfg)) as [width height].
  destruct (setViewport env width height); simpl; [|reflexivity].
  destruct (render env t) as [|hrefs]; [reflexivity|].
  destruct (d <? depth cfg); [|reflexivity].
  destruct (Js.origin t) as [base|], hrefs as [hrefs|]; reflexivity.
Qed.

(** No call throws: the [catch] block covers the whole body. *)
Lemma takeScreenshots_normal fuel t v d v' tr c :
  takeScreenshots env cfg fuel t v d = Some (v', tr, c) -> c = Normal.
Proof.
  destruct fuel as [|fuel]; simpl; [discriminate|].
  destruct (limit_reached cfg v d); [by intros [= _ _ <-]|].
  destruct (try_block env cfg _ t v d) as [[[v1 tr1] []]|];
    intros H; try discriminate H; by injection H as _ _ <-.
Qed.

Lemma for_of_normal call links v v' tr c :
  (forall l w w' tr' c', call l w = Some (w', tr', c') -> c' = Normal) ->
  for_of call links v = Some (v', tr, c) -> c = Normal.
Proof.
  intros Hcall. revert v v' tr c.
  induction links as [|link rest IH]; intros v v' tr c; simpl.
  - congruence.
  - case_bool_decide; [apply IH|].
    destruct (call link v) as [[[v1 tr1] c1]|] eqn:Hc; [|discriminate].
    rewrite (Hcall _ _ _ _ _ Hc).
    destruct (for_of call rest v1) as [[[v2 tr2] c2]|] eqn:Hrest; [|discriminate].
    intros [= <- <- <-]. eapply IH, Hrest.
Qed.

(** The first call, when a limit is reached. *)
Lemma takeScreenshots_limit fuel t v d :
  limit_reached cfg v d = true ->
  takeScreenshots env cfg (S fuel) t v d = Some (v, [EvCall t d], Normal).
Proof. intros H. simpl. by rewrite H. Qed.

(** A task that does not follow links. *)
Lemma takeScreenshots_task fuel t v d :
  limit_reached cfg v d = false ->
  (forall links, visit env cfg t d <> VExpand links) ->
  takeScreenshots env cfg (S fuel) t v d = Some ({[t]} ∪ v, task_events t d (visit env cfg t d), Normal).
Proof.
  intros H Hv. simpl. rewrite H, try_block_visit.
  destruct (visit env cfg t d) as [[]| |links]; try reflexivity.
  by destruct (Hv links).
Qed.

(** A task that follows the links of its page. *)
Lemma takeScreenshots_expand fuel t v d links :
  limit_reached cfg v d = false ->
  visit env cfg t d = VExpand links ->
  takeScreenshots env cfg (S fuel) t v d =
  match for_of (fun link w => takeScreenshots env cfg fuel link w (d + 1)) links ({[t]} ∪ v) with
  | Some (v', tr, Normal) => Some (v', task_events t d (VExpand links) ++ tr, Normal)
  | Some (v', tr, Throw) =>
      Some (v', task_events t d (VExpand links) ++ tr ++ [EvError t d], Normal)
  | None => None
  end.
Proof.
  intros H Hv. simpl. rewrite H, try_block_visit, Hv.
  destruct (for_of _ links _) as [[[v' tr] []]|]; reflexivity.
Qed.

(** The induction principle of the traversal: [P] is shown of every call
    and [Q] of every loop over the links of a page. *)
Lemma crawl_ind
    (P : string -> gset string -> Z -> gset string -> list Event -> Prop)
    (Q : Z -> list string -> gset string -> gset string -> list Event -> Prop) :
  (forall t v d, limit_reached cfg v d = true -> P t v d v [EvCall t d]) ->
  (forall t v d, limit_reached cfg v d = false ->
     (forall links, visit env cfg t d <> VExpand links) ->
     P t v d ({[t]} ∪ v) (task_events t d (visit env cfg t d))) ->
  (forall t v d links v' tr, limit_reached cfg v d = false ->
     visit env cfg t d = VExpand links ->
     Q (d + 1) links ({[t]} ∪ v) v' tr ->
     P t v d v' (task_events t d (VExpand links) ++ tr)) ->
  (forall d v, Q d [] v v []) ->
  (forall d link rest v v' tr, link ∈ v ->
     Q d rest v v' tr -> Q d (link :: rest) v v' tr) ->
  (forall d link rest v v1 tr1 v2 tr2, link ∉ v ->
     P link v d v1 tr1 -> Q d rest v1 v2 tr2 ->
     Q d (link :: rest) v v2 (tr1 ++ tr2)) ->
  forall fuel t v d v' tr c,
    takeScreenshots env cfg fuel t v d = Some (v', tr, c) -> P t v d v' tr.
Proof.
  intros Hlimit Htask Hexpand Hnil Hskip Hcons.
  induction fuel as [|fuel IH]; intros t v d v' tr c Hrun; [discriminate|].
  destruct (limit_reached cfg v d) eqn:Hl.
  { rewrite takeScreenshots_limit in Hrun by done.
    injection Hrun as <- <- <-. by apply Hlimit. }
  destruct (visit env cfg t d) as [written| |links] eqn:Hv.
  1,2: rewrite takeScreenshots_task in Hrun by (done || congruence);
       injection Hrun as <- <- <-; apply Htask; [done|congruence].
  rewrite (takeScreenshots_expand _ _ _ _ links) in Hrun by done.
  assert (Hloop : forall ls w w' tr' c',
    for_of (fun link w => takeScreenshots env cfg fuel link w (d + 1)) ls w = Some (w', tr', c') ->
    c' = Normal /\ Q (d + 1) ls w w' tr').
  { induction ls as [|link rest IHls]; intros w w' tr' c'; simpl.
    - intros [= <- <- <-]. split; [done|apply Hnil].
    - case_bool_decide as Hin.
      + intros Hrest. destruct (IHls _ _ _ _ Hrest). split; [done|by apply Hskip].
      + destruct (takeScreenshots env cfg fuel link w (d + 1)) as [[[v1 tr1] c1]|] eqn:Hcall;
          [|discriminate].
        pose proof (takeScreenshots_normal _ _ _ _ _ _ _ Hcall) as ->.
        destruct (for_of _ rest v1) as [[[v2 tr2] c2]|] eqn:Hrest; [|discriminate].
        intros [= <- <- <-]. destruct (IHls _ _ _ _ Hrest) as [-> HQ].
        split; [done|]. eapply Hcons; eauto. }
  destruct (for_of _ links _) as [[[v1 tr1] c1]|] eqn:Hfor; [|discriminate].
  destruct (Hloop _ _ _ _ _ Hfor) as [-> HQ].
  injection Hrun as <- <- <-. by apply Hexpand.
Qed.

End Unfolding.

(** ** The stages of a task *)

Section StageFacts.

Variable env : Env.
Variable cfg : Config.

Lemma limit_reached_false v d :
  limit_reached cfg v d = false <->
  Z.of_nat (size v) < maxPages cfg /\ d <= depth cfg.
Proof. unfold limit_reached. rewrite orb_false_iff. lia. Qed.

Lemma limit_reached_true v d :
  limit_reached cfg v d = true <->
  maxPages cfg <= Z.of_nat (size v) \/ depth cfg < d.
Proof. unfold limit_reached. rewrite orb_true_iff. lia. Qed.

Lemma visit_expand t d links :
  visit env cfg t d = VExpand links ->
  d < depth cfg /\ viewport_ok env cfg /\
  exists base hrefs,
    Js.origin t = Some base /\ render env t = Captured (Some hrefs) /\
    links = findLinks hrefs base (followExternal cfg).
Proof.
  unfold visit, viewport_ok.
  destruct (viewport_of (resolution cfg)) as [width height].
  destruct (setViewport env width height); simpl; [|discriminate].
  destruct (render env t) as [|hrefs]; [discriminate|].
  destruct (d <? depth cfg) eqn:Hd; [|discriminate].
  destruct (Js.origin t) as [base|], hrefs as [hrefs|]; try discriminate.
  intros [= <-]. repeat split; [lia|]. by exists base, hrefs.
Qed.

Lemma visit_written t d :
  visit env cfg t d <> VThrow false ->
  viewport_ok env cfg /\ render env t <> RenderFailed.
Proof.
  unfold visit, viewport_ok.
  destruct (viewport_of (resolution cfg)) as [width height].
  destruct (setViewport env width height); simpl; [|done].
  by destruct (render env t).
Qed.

Lemma visit_render_failed t d :
  render env t = RenderFailed -> visit env cfg t d = VThrow false.
Proof.
  intros H. unfold visit. rewrite H.
  destruct (viewport_of (resolution cfg)) as [width height].
  by destruct (setViewport env width height).
Qed.

Lemma visit_viewport_failed t d :
  ~ viewport_ok env cfg -> visit env cfg t d = VThrow false.
Proof.
  unfold visit, viewport_ok.
  destruct (viewport_of (resolution cfg)) as [width height].
  by destruct (setViewport env width height).
Qed.

Lemma visit_at_depth t d :
  depth cfg <= d -> forall links, visit env cfg t d <> VExpand links.
Proof. intros Hd links [H _]%visit_expand. lia. Qed.

End StageFacts.

(** ** Termination *)

Section Termination.

Variable env : Env.
Variable cfg : Config.

Lemma for_of_total call links v :
  (forall l w, exists w' tr, call l w = Some (w', tr, Normal)) ->
  exists v' tr, for_of call links v = Some (v', tr, Normal).
Proof.
  intros Hcall. revert v.
  induction links as [|link rest IH]; intros v; simpl; [by eauto|].
  case_bool_decide; [apply IH|].
  destruct (Hcall link v) as (v1 & tr1 & ->).
  destruct (IH v1) as (v2 & tr2 & ->). eauto.
Qed.

(** The fuel a call needs is the depth left to go. *)
Lemma takeScreenshots_total fuel t v d :
  (Z.to_nat (depth cfg - d) < fuel)%nat ->
  exists v' tr, takeScreenshots env cfg fuel t v d = Some (v', tr, Normal).
Proof.
  revert t v d.
  induction fuel as [|fuel IH]; intros t v d Hfuel; [lia|].
  destruct (limit_reached cfg v d) eqn:Hl.
  { rewrite takeScreenshots_limit by done. eauto. }
  destruct (visit env cfg t d) as [written| |links] eqn:Hv.
  1,2: rewrite takeScreenshots_task by (done || congruence); eauto.
  rewrite (takeScreenshots_expand _ _ _ _ _ _ links) by done.
  apply visit_expand in Hv as [Hd _].
  edestruct (for_of_total (fun link w => takeScreenshots env cfg fuel link w (d + 1)))
    as (v' & tr & ->); [|by eauto].
  intros l w. apply IH. lia.
Qed.

Lemma for_of_ext call1 call2 links v r :
  (forall l w r', call1 l w = Some r' -> call2 l w = Some r') ->
  for_of call1 links v = Some r -> for_of call2 links v = Some r.
Proof.
  intros Hcall. revert v r.
  induction links as [|link rest IH]; intros v r; simpl; [done|].
  case_bool_decide; [apply IH|].
  destruct (call1 link v) as [[[v1 tr1] c1]|] eqn:H1; [|discriminate].
  rewrite (Hcall _ _ _ H1). destruct c1; [|done].
  destruct (for_of call1 rest v1) as [[[v2 tr2] c2]|] eqn:H2; [|discriminate].
  by rewrite (IH _ _ H2).
Qed.

(** More fuel does not change the result. *)
Lemma takeScreenshots_fuel fuel fuel' t v d r :
  (fuel <= fuel')%nat ->
  takeScreenshots env cfg fuel t v d = Some r ->
  takeScreenshots env cfg fuel' t v d = Some r.
Proof.
  revert fuel' t v d r.
  induction fuel as [|fuel IH]; intros fuel' t v d r Hle; [discriminate|].
  destruct fuel' as [|fuel']; [lia|].
  destruct (limit_reached cfg v d) eqn:Hl.
  { by rewrite !takeScreenshots_limit. }
  destruct (visit env cfg t d) as [written| |links] eqn:Hv.
  1,2: by rewrite !takeScreenshots_task by (done || congruence).
  rewrite !(takeScreenshots_expand _ _ _ _ _ _ links) by done.
  destruct (for_of _ links _) as [r1|] eqn:Hfor; [|by destruct r as [[? ?] ?]].
  erewrite for_of_ext; [done| |exact Hfor].
  intros l w r'. apply IH. lia.
Qed.

Lemma main_total seed :
  exists v tr, main env cfg seed = Some (v, tr, Normal).
Proof. apply takeScreenshots_total. lia. Qed.

End Termination.

(** ** What every call maintains *)

Section Invariants.

Variable env : Env.
Variable cfg : Config.

Lemma claimed_app tr1 tr2 : claimed (tr1 ++ tr2) = claimed tr1 ++ claimed tr2.
Proof. apply omap_app. Qed.

Lemma saved_app tr1 tr2 : saved (tr1 ++ tr2) = saved tr1 ++ saved tr2.
Proof. apply omap_app. Qed.

Lemma claimed_task t d v :
  claimed (task_events t d v) = [t].
Proof. by destruct v as [[]| |links]. Qed.

Lemma elem_of_claimed u tr : u ∈ claimed tr <-> exists d, EvClaim u d ∈ tr.
Proof.
  unfold claimed. rewrite list_elem_of_omap. split.
  - intros (e & He & Hu). destruct e; try discriminate.
    injection Hu as ->. eauto.
  - intros [d Hd]. by exists (EvClaim u d).
Qed.


Lemma size_add (t : string) (v : gset string) :
  (size ({[t]} ∪ v) <= S (size v))%nat.
Proof.
  destruct (decide (t ∈ v)) as [Hin|Hout].
  - replace ({[t]} ∪ v) with v by set_solver. lia.
  - rewrite size_union by set_solver. rewrite size_singleton. lia.
Qed.

(** The [visited] set is what it was, plus the claims of the call; a
    call for a URL that is not in [visited] claims only URLs that
    are not in it, each of them once. *)
Lemma takeScreenshots_claims fuel t v d v' tr c :
  takeScreenshots env cfg fuel t v d = Some (v', tr, c) ->
  v' = list_to_set (claimed tr) ∪ v /\
  (t ∉ v -> NoDup (claimed tr) /\ forall u, u ∈ claimed tr -> u ∉ v).
Proof.
  apply (crawl_ind env cfg
    (fun t v d v' tr =>
       v' = list_to_set (claimed tr) ∪ v /\
       (t ∉ v -> NoDup (claimed tr) /\ forall u, u ∈ claimed tr -> u ∉ v))
    (fun d links v v' tr =>
       v' = list_to_set (claimed tr) ∪ v /\
       NoDup (claimed tr) /\ forall u, u ∈ claimed tr -> u ∉ v)); clear.
  - intros t v d _. simpl. split; [set_solver|]. intros _. split; [constructor|set_solver].
  - intros t v d _ _. rewrite claimed_task. split; [set_solver|].
    intros Ht. split; [apply NoDup_singleton|set_solver].
  - intros t v d links v' tr _ _ (-> & Hnd & Hfresh).
    rewrite claimed_app, claimed_task. simpl. split; [set_solver|].
    intros Ht. split; [|set_solver].
    constructor; [|done]. intros Hin. apply Hfresh in Hin. set_solver.
  - intros d v. simpl. split; [set_solver|]. split; [constructor|set_solver].
  - done.
  - intros d link rest v v1 tr1 v2 tr2 Hlink [-> Hfresh1] (-> & Hnd2 & Hfresh2).
    destruct (Hfresh1 Hlink) as [Hnd1 Hout1].
    rewrite claimed_app. split; [rewrite list_to_set_app_L; set_solver|].
    split.
    + apply NoDup_app. split; [done|]. split; [|done].
      intros u Hu1 Hu2. apply Hfresh2 in Hu2. set_solver.
    + intros u [Hu|Hu]%elem_of_app; [by apply Hout1|].
      apply Hfresh2 in Hu. set_solver.
Qed.

(** The page cap. *)
Lemma takeScreenshots_cap fuel t v d v' tr c :
  takeScreenshots env cfg fuel t v d = Some (v', tr, c) ->
  Z.of_nat (size v') <= Z.max (Z.of_nat (size v)) (maxPages cfg).
Proof.
  apply (crawl_ind env cfg
    (fun t v d v' tr => Z.of_nat (size v') <= Z.max (Z.of_nat (size v)) (maxPages cfg))
    (fun d links v v' tr => Z.of_nat (size v') <= Z.max (Z.of_nat (size v)) (maxPages cfg)));
    clear.
  - lia.
  - intros t v d [Hm _]%limit_reached_false _. pose proof (size_add t v). lia.
  - intros t v d links v' tr [Hm _]%limit_reached_false _ HQ.
    pose proof (size_add t v). lia.
  - lia.
  - done.
  - lia.
Qed.

Lemma sound_event_weaken lo hi lo' hi' e :
  lo' <= lo -> hi <= hi' -> sound_event env cfg lo hi e -> sound_event env cfg lo' hi' e.
Proof.
  intros Hlo Hhi. destruct e; simpl; try lia.
  all: intros [? ?]; split; [lia|done].
Qed.

Ltac each_event :=
  repeat first [apply Forall_nil_2 | apply Forall_cons_2; [cbn [sound_event]|]].

(** Every event is justified by the configuration and the environment. *)
Lemma takeScreenshots_sound fuel t v d v' tr c :
  takeScreenshots env cfg fuel t v d = Some (v', tr, c) ->
  Forall (sound_event env cfg d (Z.max d (depth cfg))) tr.
Proof.
  apply (crawl_ind env cfg
    (fun t v d v' tr => Forall (sound_event env cfg d (Z.max d (depth cfg))) tr)
    (fun d links v v' tr =>
       d <= depth cfg -> Forall (sound_event env cfg d (depth cfg)) tr)); clear.
  - intros t v d _. each_event. lia.
  - intros t v d [_ Hd]%limit_reached_false Hv.
    destruct (visit env cfg t d) as [[]| |links] eqn:Hvisit; simpl.
    + destruct (visit_written env cfg t d) as [Hview Hr]; [congruence|].
      each_event; try lia; [done|]. split; [lia|by eauto].
    + each_event; try lia. split; [lia|by eauto].
    + destruct (visit_written env cfg t d) as [Hview Hr]; [congruence|].
      each_event; try lia; done.
    + by destruct (Hv links).
  - intros t v d links v' tr [_ Hd]%limit_reached_false Hv HQ.
    destruct (visit_written env cfg t d) as [Hview Hr]; [congruence|].
    pose proof (visit_expand _ _ _ _ _ Hv) as [Hlt _].
    apply Forall_app. split.
    + each_event; try lia; [done|]. split; [lia|done].
    + eapply Forall_impl; [apply HQ; lia|].
      intros e. apply sound_event_weaken; lia.
  - constructor.
  - done.
  - intros d link rest v v1 tr1 v2 tr2 _ HP HQ Hd. apply Forall_app. split; [|by apply HQ].
    eapply Forall_impl; [exact HP|]. intros e. apply sound_event_weaken; lia.
Qed.

Lemma announced_mono seen seen' tr :
  seen ⊆ seen' -> announced seen tr -> announced seen' tr.
Proof.
  revert seen seen'. induction tr as [|e tr IH]; intros seen seen' Hsub; [done|].
  destruct e; simpl; try (intros [? ?]; split; [by apply Hsub|by eapply IH]);
    apply IH; set_solver.
Qed.

Lemma announced_app seen tr1 tr2 :
  announced seen tr1 -> announced seen tr2 -> announced seen (tr1 ++ tr2).
Proof.
  revert seen. induction tr1 as [|e tr1 IH]; intros seen H1 H2; [done|].
  destruct e; simpl in *; try (destruct H1; split; [done|by apply IH]).
  - by apply IH.
  - apply IH; [done|]. eapply announced_mono; [|exact H2]. set_solver.
Qed.

(** The events of a task come after its claim. *)
Lemma takeScreenshots_announced fuel t v d v' tr c :
  takeScreenshots env cfg fuel t v d = Some (v', tr, c) -> announced [] tr.
Proof.
  apply (crawl_ind env cfg
    (fun t v d v' tr => announced [] tr) (fun d links v v' tr => announced [] tr)); clear.
  - done.
  - intros t v d _ _. destruct (visit env cfg t d) as [[]| |links]; simpl; set_solver.
  - intros t v d links v' tr _ _ HQ. simpl. split; [set_solver|]. split; [set_solver|].
    eapply announced_mono; [|exact HQ]. set_solver.
  - done.
  - done.
  - intros. by apply announced_app.
Qed.

(** What [announced] means: an event of a task is preceded by the claim. *)
Lemma announced_before seen p e q u d :
  announced seen (p ++ e :: q) -> in_task e = Some (u, d) ->
  (u, d) ∈ seen \/ EvClaim u d ∈ p.
Proof.
  intros Han He. revert seen Han.
  induction p as [|e' p IH]; intros seen Han; simpl in Han.
  - destruct e; try discriminate; simpl in He; injection He as -> ->; left; apply Han.
  - destruct e'; simpl in Han.
    2: { destruct (IH _ Han) as [[[= -> ->]|Hin]%elem_of_cons|Hin];
           [right; left|by left|right; by right]. }
    all: destruct (IH seen) as [Hin|Hin];
           [first [exact Han | apply Han]|by left|right; by right].
Qed.

(** A capture is written only for a claimed URL. *)
Lemma takeScreenshots_saved fuel t v d v' tr c :
  takeScreenshots env cfg fuel t v d = Some (v', tr, c) ->
  saved tr `sublist_of` claimed tr.
Proof.
  apply (crawl_ind env cfg
    (fun t v d v' tr => saved tr `sublist_of` claimed tr)
    (fun d links v v' tr => saved tr `sublist_of` claimed tr)); clear.
  - intros. simpl. constructor.
  - intros t v d _ _. destruct (visit env cfg t d) as [[]| |links]; simpl;
      repeat constructor.
  - intros t v d links v' tr _ _ HQ. simpl. by constructor.
  - intros. constructor.
  - done.
  - intros. rewrite saved_app, claimed_app. by apply sublist_app.
Qed.

(** A call starts with its own events. *)
Lemma takeScreenshots_head fuel t v d v' tr c :
  takeScreenshots env cfg fuel t v d = Some (v', tr, c) ->
  if limit_reached cfg v d then v' = v /\ tr = [EvCall t d]
  else exists tr', tr = EvCall t d :: EvClaim t d :: tr'.
Proof.
  destruct fuel as [|fuel]; [discriminate|].
  destruct (limit_reached cfg v d) eqn:Hl.
  { rewrite takeScreenshots_limit by done. by intros [= <- <- _]. }
  destruct (visit env cfg t d) as [written| |links] eqn:Hv.
  1,2: rewrite takeScreenshots_task by (done || congruence); rewrite Hv;
       intros [= _ <- _]; try destruct written; simpl; eauto.
  rewrite (takeScreenshots_expand _ _ _ _ _ _ links) by done.
  destruct (for_of _ links _) as [[[v1 tr1] []]|]; intros [= _ <- _]; simpl; eauto.
Qed.

End Invariants.

(** ** The links that [findLinks] keeps *)

Section FindLinks.

Lemma set_add_elem (x href : string) uniqueLinks :
  x ∈ set_add href uniqueLinks <-> x = href \/ x ∈ uniqueLinks.
Proof.
  unfold set_add. case_bool_decide; [|rewrite elem_of_app, list_elem_of_singleton; tauto].
  split; [tauto|]. by intros [->|].
Qed.

Lemma set_add_NoDup href uniqueLinks :
  NoDup uniqueLinks -> NoDup (set_add href uniqueLinks).
Proof.
  intros Hnd. unfold set_add. case_bool_decide; [done|].
  apply NoDup_app. split; [done|]. split; [|apply NoDup_singleton].
  intros x Hx ->%list_elem_of_singleton. done.
Qed.

Lemma findLinks_step_NoDup base (fe : bool) hrefs acc :
  NoDup acc ->
  NoDup (fold_left
    (fun uniqueLinks href =>
       if Js.startsWith href "http" then
         let isExternal := negb (Js.startsWith href base) in
         if fe || negb isExternal then set_add href uniqueLinks
         else uniqueLinks
       else uniqueLinks) hrefs acc).
Proof.
  revert acc. induction hrefs as [|href hrefs IH]; intros acc Hnd; [done|].
  simpl. apply IH.
  destruct (Js.startsWith href "http"); [|done].
  destruct (fe || negb (negb (Js.startsWith href base))); [|done].
  by apply set_add_NoDup.
Qed.

(** The links that [findLinks] returns are pairwise different strings. *)
Lemma findLinks_NoDup hrefs base fe : NoDup (findLinks hrefs base fe).
Proof. apply findLinks_step_NoDup. constructor. Qed.

Lemma findLinks_step_id base (fe : bool) hrefs acc :
  NoDup (acc ++ hrefs) ->
  Forall (fun href => Js.startsWith href "http" = true /\
                      (fe = true \/ Js.startsWith href base = true)) hrefs ->
  fold_left
    (fun uniqueLinks href =>
       if Js.startsWith href "http" then
         let isExternal := negb (Js.startsWith href base) in
         if fe || negb isExternal then set_add href uniqueLinks
         else uniqueLinks
       else uniqueLinks) hrefs acc = acc ++ hrefs.
Proof.
  revert acc. induction hrefs as [|href hrefs IH]; intros acc Hnd Hall.
  { by rewrite app_nil_r. }
  apply Forall_cons in Hall as [[Hhttp Hkeep] Hall]. simpl. rewrite Hhttp.
  assert (fe || negb (negb (Js.startsWith href base)) = true) as ->.
  { destruct Hkeep as [->| ->]; [done|]. by destruct fe. }
  assert (Hout : href ∉ acc).
  { apply NoDup_app in Hnd as (_ & Hdis & _). intros Hin.
    apply (Hdis _ Hin). by left. }
  unfold set_add. rewrite bool_decide_eq_false_2 by done.
  rewrite IH; [by rewrite <- app_assoc| |done].
  by rewrite <- app_assoc.
Qed.

(** Links that are different strings and pass the two tests are all kept. *)
Lemma findLinks_id hrefs base fe :
  NoDup hrefs ->
  Forall (fun href => Js.startsWith href "http" = true /\
                      (fe = true \/ Js.startsWith href base = true)) hrefs ->
  findLinks hrefs base fe = hrefs.
Proof. intros. by apply (findLinks_step_id base fe hrefs []). Qed.

(** With [followExternal = false] every link kept starts with [base]. *)
Lemma findLinks_step_prefix base hrefs acc :
  Forall (fun href => Js.startsWith href base = true) acc ->
  Forall (fun href => Js.startsWith href base = true)
    (fold_left
      (fun uniqueLinks href =>
         if Js.startsWith href "http" then
           let isExternal := negb (Js.startsWith href base) in
           if false || negb isExternal then set_add href uniqueLinks
           else uniqueLinks
         else uniqueLinks) hrefs acc).
Proof.
  revert acc. induction hrefs as [|href hrefs IH]; intros acc Hacc; [done|].
  simpl. apply IH.
  destruct (Js.startsWith href "http"); [|done].
  destruct (Js.startsWith href base) eqn:Hb; simpl; [|done].
  apply Forall_forall. intros x [->|Hx]%set_add_elem; [done|].
  by eapply Forall_forall in Hacc.
Qed.

Lemma findLinks_prefix hrefs base :
  Forall (fun href => Js.startsWith href base = true) (findLinks hrefs base false).
Proof. apply findLinks_step_prefix. constructor. Qed.

End FindLinks.

(** ** Pages whose links are leaves *)

Section Leaves.

Variable env : Env.
Variable cfg : Config.

Lemma filter_fresh (u : string) (v : gset string) (ls : list string) :
  u ∉ ls -> filter (.∉ {[u]} ∪ v) ls = filter (.∉ v) ls.
Proof.
  intros Hu. induction ls as [|x ls IH]; [done|].
  apply not_elem_of_cons in Hu as [Hx Hu].
  destruct (decide (x ∈ v)) as [Hin|Hout].
  - rewrite !filter_cons_False by set_solver. by apply IH.
  - rewrite !filter_cons_True by set_solver. f_equal. by apply IH.
Qed.

(** The loop over the links of a page at the last depth but one: every
    link that is not in [visited] yet is claimed, in order, as long as the
    page cap allows, and none of them is expanded. *)
Lemma for_of_leaves fuel (ls : list string) (v : gset string) d :
  d = depth cfg -> NoDup ls ->
  Z.of_nat (size v) + Z.of_nat (List.length (filter (.∉ v) ls)) <= maxPages cfg ->
  for_of (fun link w => takeScreenshots env cfg (S fuel) link w d) ls v =
  Some (list_to_set (filter (.∉ v) ls) ∪ v,
        flat_map (fun u => task_events u d (visit env cfg u d)) (filter (.∉ v) ls),
        Normal).
Proof.
  intros Hd. revert v.
  induction ls as [|link rest IH]; intros v Hnd Hcap.
  { simpl. do 3 f_equal. set_solver. }
  apply NoDup_cons in Hnd as [Hlink Hnd]. cbn [for_of].
  case_bool_decide as Hin.
  - rewrite filter_cons_False in * by tauto. by apply IH.
  - rewrite filter_cons_True in * by done. cbn [List.length] in Hcap.
    rewrite takeScreenshots_task.
    2: { apply limit_reached_false. lia. }
    2: { apply visit_at_depth. lia. }
    assert (Hsize : size ({[link]} ∪ v) = S (size v)).
    { rewrite size_union by set_solver. by rewrite size_singleton. }
    rewrite IH; [|done|rewrite filter_fresh by done; lia].
    rewrite filter_fresh by done. cbn [flat_map]. do 3 f_equal. set_solver.
Qed.

Lemma claimed_leaves ls d :
  claimed (flat_map (fun u => task_events u d (visit env cfg u d)) ls) = ls.
Proof.
  induction ls as [|u ls IH]; [done|].
  cbn [flat_map]. rewrite claimed_app, claimed_task, IH. done.
Qed.


(** A run of depth 2 whose seed page can be captured: the links kept by
    the filter are claimed one after the other. *)
Lemma main_two_levels seed base hrefs :
  depth cfg = 2 -> viewport_ok env cfg ->
  Js.origin seed = Some base -> render env seed = Captured (Some hrefs) ->
  let links := findLinks hrefs base (followExternal cfg) in
  let children := filter (.∉ ({[seed]} : gset string)) links in
  Z.of_nat (List.length children) < maxPages cfg ->
  main env cfg seed =
  Some (list_to_set (seed :: children),
        task_events seed 1 (VExpand links) ++
        flat_map (fun u => task_events u 2 (visit env cfg u 2)) children,
        Normal).
Proof.
  intros HD Hview Hbase Hseed links children Hcap.
  assert (Hnd : NoDup links) by apply findLinks_NoDup.
  assert (Hvisit : visit env cfg seed 1 = VExpand links).
  { unfold visit, viewport_ok in *.
    destruct (viewport_of (resolution cfg)) as [width height].
    rewrite Hview, Hseed, Hbase, HD. done. }
  unfold main. rewrite HD. change (Z.to_nat 2) with 2%nat.
  rewrite (takeScreenshots_expand _ _ _ _ _ _ links); [|apply limit_reached_false|done].
  2: { rewrite size_empty. lia. }
  replace ({[seed]} ∪ ∅ : gset string) with ({[seed]} : gset string) by set_solver.
  rewrite for_of_leaves; [|lia|done|].
  2: { rewrite size_singleton. fold children. lia. }
  fold children. do 3 f_equal. set_solver.
Qed.

End Leaves.

(** ** A run *)

Section Run.

Variable env : Env.
Variable cfg : Config.
Variable seed : string.

(** What the lemmas on calls say of the run from the seed. *)
Lemma main_facts :
  exists v tr,
    main env cfg seed = Some (v, tr, Normal) /\
    v = visited_after tr /\
    NoDup (claimed tr) /\
    Z.of_nat (size v) <= Z.max 0 (maxPages cfg) /\
    Forall (sound_event env cfg 1 (Z.max 1 (depth cfg))) tr /\
    announced [] tr /\
    saved tr `sublist_of` claimed tr.
Proof.
  destruct (main_total env cfg seed) as (v & tr & Hrun).
  exists v, tr. split; [done|]. unfold main in Hrun.
  destruct (takeScreenshots_claims _ _ _ _ _ _ _ _ _ Hrun) as [Hv Hfresh].
  destruct Hfresh as [Hnd _]; [set_solver|].
  pose proof (takeScreenshots_cap _ _ _ _ _ _ _ _ _ Hrun) as Hcap.
  rewrite size_empty in Hcap.
  split; [unfold visited_after; set_solver|]. split; [done|]. split; [done|].
  split; [by eapply takeScreenshots_sound|].
  split; [by eapply takeScreenshots_announced|by eapply takeScreenshots_saved].
Qed.

Lemma main_head v tr c :
  main env cfg seed = Some (v, tr, c) ->
  tr = [EvCall seed 1] \/ exists tr', tr = EvCall seed 1 :: EvClaim seed 1 :: tr'.
Proof.
  intros Hrun. apply takeScreenshots_head in Hrun.
  destruct (limit_reached cfg ∅ 1); [left; tauto|by right].
Qed.

End Run.

Lemma claimed_prefix p tr : p `prefix_of` tr -> claimed p `prefix_of` claimed tr.
Proof. intros [q ->]. rewrite claimed_app. by eexists. Qed.

Lemma visited_after_prefix p tr :
  p `prefix_of` tr -> visited_after p ⊆ visited_after tr.
Proof.
  intros [q ->]. unfold visited_after. rewrite claimed_app, list_to_set_app_L.
  set_solver.
Qed.

Lemma claimed_nil_no_claim tr u d : claimed tr = [] -> EvClaim u d ∉ tr.
Proof.
  intros Hnil Hin. assert (u ∈ claimed tr) as Hu by (apply elem_of_claimed; eauto).
  rewrite Hnil in Hu. by apply not_elem_of_nil in Hu.
Qed.

(** ** The link filter *)

(** C1 (the code departs from it): with [followExternal = false] the filter
    keeps every link whose text starts with the origin of the page, which
    lets through links of another origin.  The page [https://a.test/]
    links to [https://a.test.evil.com/]: the origins differ, [findLinks]
    keeps the link and the run claims and captures it. *)
Theorem findLinks_keeps_other_origin :
  Js.origin "https://a.test/" = Some "https://a.test" /\
  Js.origin "https://a.test.evil.com/" = Some "https://a.test.evil.com" /\
  findLinks ["https://a.test.evil.com/"] "https://a.test" false
    = ["https://a.test.evil.com/"] /\
  trace_of
    (main (site [("https://a.test/", ["https://a.test.evil.com/"]);
                 ("https://a.test.evil.com/", [])])
       (config "1920x1080" 2 10 false) "https://a.test/")
  = Some [EvCall "https://a.test/" 1; EvClaim "https://a.test/" 1;
          EvSaved "https://a.test/" 1;
          EvLinks "https://a.test/" 1 ["https://a.test.evil.com/"];
          EvCall "https://a.test.evil.com/" 2; EvClaim "https://a.test.evil.com/" 2;
          EvSaved "https://a.test.evil.com/" 2].
Proof. repeat split; vm_compute; reflexivity. Qed.

(** ** Rendering once *)

(** C3: in a run no URL is claimed twice and no URL is captured twice: a
    URL is claimed only when it is not in [visited], and once its capture
    is written, after its claim, no other capture of it is. *)
Theorem rendered_once env cfg seed :
  exists v tr,
    main env cfg seed = Some (v, tr, Normal) /\
    NoDup (claimed tr) /\
    NoDup (saved tr) /\
    (forall p u d q, tr = p ++ EvClaim u d :: q ->
       (u ∉ visited_after p) /\ (u ∉ claimed q)) /\
    (forall p u d q, tr = p ++ EvSaved u d :: q ->
       EvClaim u d ∈ p /\ (u ∉ saved p) /\ (u ∉ saved q)).
Proof.
  destruct (main_facts env cfg seed) as (v & tr & Hrun & Hv & Hnd & _ & _ & Han & Hsub).
  assert (Hnds : NoDup (saved tr)) by (by eapply sublist_NoDup).
  exists v, tr. split; [done|]. split; [done|]. split; [done|]. split.
  - intros p u d q ->. rewrite claimed_app in Hnd. simpl in Hnd.
    apply NoDup_app in Hnd as (_ & Hdis & [Hq _]%NoDup_cons).
    split; [|done]. unfold visited_after. rewrite elem_of_list_to_set.
    intros Hin. apply (Hdis _ Hin). by left.
  - intros p u d q ->. rewrite saved_app in Hnds. simpl in Hnds.
    apply NoDup_app in Hnds as (_ & Hdis & [Hq _]%NoDup_cons).
    split; [|split; [|done]].
    + destruct (announced_before [] p (EvSaved u d) q u d Han eq_refl) as [Hin|Hin];
        [by apply not_elem_of_nil in Hin|done].
    + intros Hin. apply (Hdis _ Hin). by left.
Qed.

(** ** The depth bound *)




(** ** Scenario B *)

(** C6: the seed [https://a.test/], depth 2, at most 10 pages, external
    links not followed, and a seed page with the links [https://a.test/x]
    twice and [https://b.test/y]: [findLinks] returns [https://a.test/x]
    alone, and after the seed exactly that URL is claimed. *)
Theorem scenario_B env :
  setViewport env (Some 1920) (Some 1080) = true ->
  render env "https://a.test/" =
    Captured (Some ["https://a.test/x"; "https://a.test/x"; "https://b.test/y"]) ->
  exists v tr,
    main env (config "1920x1080" 2 10 false) "https://a.test/" = Some (v, tr, Normal) /\
    findLinks ["https://a.test/x"; "https://a.test/x"; "https://b.test/y"]
      "https://a.test" false = ["https://a.test/x"] /\
    EvLinks "https://a.test/" 1 ["https://a.test/x"] ∈ tr /\
    claimed tr = ["https://a.test/"; "https://a.test/x"] /\
    v = {["https://a.test/"; "https://a.test/x"]}.
Proof.
  intros Hview Hseed.
  assert (Hlinks : findLinks ["https://a.test/x"; "https://a.test/x"; "https://b.test/y"]
                     "https://a.test" false = ["https://a.test/x"])
    by (vm_compute; reflexivity).
  pose proof (main_two_levels env (config "1920x1080" 2 10 false) "https://a.test/"
                "https://a.test" _ eq_refl Hview eq_refl Hseed) as Hrun.
  cbn [followExternal config] in Hrun. rewrite Hlinks in Hrun.
  rewrite filter_cons_True, filter_nil in Hrun by set_solver.
  rewrite Hrun by (simpl; lia).
  eexists _, _. split; [done|]. split; [done|]. split.
  - simpl. set_solver.
  - rewrite claimed_app, claimed_task, claimed_leaves. split; [done|].
    simpl. set_solver.
Qed.

Lemma scenario_B_on_a_site :
  let env := site [("https://a.test/",
                    ["https://a.test/x"; "https://a.test/x"; "https://b.test/y"]);
                   ("https://a.test/x", ["https://a.test/"])] in
  setViewport env (Some 1920) (Some 1080) = true /\
  render env "https://a.test/" =
    Captured (Some ["https://a.test/x"; "https://a.test/x"; "https://b.test/y"]) /\
  exists v tr,
    main env (config "1920x1080" 2 10 false) "https://a.test/" = Some (v, tr, Normal) /\
    claimed tr = ["https://a.test/"; "https://a.test/x"].
Proof.
  intros env. split; [reflexivity|]. split; [reflexivity|].
  destruct (scenario_B env eq_refl eq_refl) as (v & tr & Hrun & _ & _ & Hclaimed & _).
  exists v, tr. split; [exact Hrun|exact Hclaimed].
Defined.

(** ** A failure stays in its task *)

(** C7: a URL whose render fails.  The call on it claims it, logs the
    error and returns normally, with no link followed.  In the loop of
    its parent the links after it are dealt with as they would be had it
    been in [visited] all along; a link after it that is new, and for
    which there is room under the cap, is claimed next.  And no call ever
    throws, so that no task is ended by another. *)
Theorem failure_is_contained env cfg fuel a rest v d :
  limit_reached cfg v d = false -> a ∉ v -> render env a = RenderFailed ->
  (Z.to_nat (depth cfg - d) <= fuel)%nat ->
  let call := fun link w => takeScreenshots env cfg (S fuel) link w d in
  let failed := [EvCall a d; EvClaim a d; EvError a d] in
  takeScreenshots env cfg (S fuel) a v d = Some ({[a]} ∪ v, failed, Normal) /\
  (exists v' tr,
     for_of call rest ({[a]} ∪ v) = Some (v', tr, Normal) /\
     for_of call (a :: rest) v = Some (v', failed ++ tr, Normal)) /\
  (forall b rest', rest = b :: rest' -> b ∉ {[a]} ∪ v ->
     limit_reached cfg ({[a]} ∪ v) d = false ->
     exists v' tr,
       for_of call (a :: rest) v =
       Some (v', failed ++ EvCall b d :: EvClaim b d :: tr, Normal)) /\
  (forall fuel' t w d' w' tr c,
     takeScreenshots env cfg fuel' t w d' = Some (w', tr, c) -> c = Normal).
Proof.
  intros Hl Ha Hfail Hfuel call failed.
  assert (Hcall : takeScreenshots env cfg (S fuel) a v d = Some ({[a]} ∪ v, failed, Normal)).
  { rewrite takeScreenshots_task; [|done|].
    - by rewrite visit_render_failed.
    - intros links. by rewrite visit_render_failed. }
  assert (Htotal : forall ls w, exists w' tr, for_of call ls w = Some (w', tr, Normal)).
  { intros ls w. apply for_of_total. intros l w0. apply takeScreenshots_total. lia. }
  assert (Hloop : forall w' tr, for_of call rest ({[a]} ∪ v) = Some (w', tr, Normal) ->
            for_of call (a :: rest) v = Some (w', failed ++ tr, Normal)).
  { intros w' tr Hrest. cbn [for_of]. rewrite bool_decide_eq_false_2 by done.
    unfold call at 1. rewrite Hcall. by rewrite Hrest. }
  split; [done|]. split; [|split].
  - destruct (Htotal rest ({[a]} ∪ v)) as (v' & tr & Hrest). eauto.
  - intros b rest' -> Hb Hlb.
    destruct (Htotal (b :: rest') ({[a]} ∪ v)) as (v' & tr & Hrest).
    pose proof Hrest as Hrest'. cbn [for_of] in Hrest'.
    rewrite bool_decide_eq_false_2 in Hrest' by done.
    destruct (call b ({[a]} ∪ v)) as [[[v1 tr1] c1]|] eqn:Hcb; [|discriminate].
    pose proof (takeScreenshots_normal _ _ _ _ _ _ _ _ _ Hcb) as ->.
    apply takeScreenshots_head in Hcb. rewrite Hlb in Hcb. destruct Hcb as [tr1' ->].
    destruct (for_of call rest' v1) as [[[v2 tr2] c2]|]; [|discriminate].
    injection Hrest' as <- <- _.
    exists v2, (tr1' ++ tr2). apply (Hloop _ _ Hrest).
  - intros fuel' t w d' w' tr c. apply takeScreenshots_normal.
Qed.

(** Scenario D: the seed page links to [a], which fails to load, and then
    to [b]: in the loop of the seed, [b] is claimed after the failure. *)
Lemma failure_is_contained_scenario_D :
  let seed := "https://a.test/" in
  let a := "https://a.test/a" in
  let b := "https://a.test/b" in
  let env := site [(seed, [a; b]); (b, [])] in
  let cfg := config "1920x1080" 2 10 false in
  let call := fun link w => takeScreenshots env cfg 2 link w 2 in
  render env a = RenderFailed /\
  exists v' tr,
    for_of call [a; b] {[seed]} =
    Some (v', [EvCall a 2; EvClaim a 2; EvError a 2; EvCall b 2; EvClaim b 2] ++ tr,
          Normal).
Proof.
  intros seed a b env cfg call. split; [reflexivity|].
  destruct (failure_is_contained env cfg 1 a [b] {[seed]} 2) as (_ & _ & Hnext & _).
  - vm_compute. reflexivity.
  - apply not_elem_of_singleton. discriminate.
  - reflexivity.
  - simpl. lia.
  - apply (Hnext b [] eq_refl).
    + intros [Hb|Hb]%elem_of_union; apply elem_of_singleton in Hb; discriminate.
    + vm_compute. reflexivity.
Defined.

(** ** URLs are strings *)



(** * The rest of the script *)

(** ** More on [findLinks] *)

Lemma elem_of_uniq x seen l : x ∈ uniq seen l <-> x ∈ l /\ x ∉ seen.
Proof.
  revert seen. induction l as [|y l IH]; intros seen; simpl.
  { split; [by intros ?%not_elem_of_nil|by intros [?%not_elem_of_nil _]]. }
  case_bool_decide as Hy.
  - rewrite IH, elem_of_cons. naive_solver.
  - rewrite !elem_of_cons, IH, not_elem_of_app, list_elem_of_singleton.
    split; [naive_solver|].
    intros [[->|Hx] Hseen]; [by left|].
    destruct (decide (x = y)) as [->|Hne]; [by left|by right].
Qed.

Lemma uniq_NoDup seen l : NoDup (uniq seen l).
Proof.
  revert seen. induction l as [|y l IH]; intros seen; simpl; [constructor|].
  case_bool_decide; [apply IH|].
  constructor; [|apply IH]. rewrite elem_of_uniq, not_elem_of_app, list_elem_of_singleton.
  naive_solver.
Qed.

Lemma uniq_sublist seen l : uniq seen l `sublist_of` l.
Proof.
  revert seen. induction l as [|y l IH]; intros seen; simpl; [constructor|].
  case_bool_decide; [apply sublist_cons|apply sublist_skip]; apply IH.
Qed.

(** The loop of [findLinks], from any set built so far. *)
Lemma findLinks_fold base fe hrefs acc :
  fold_left
    (fun uniqueLinks href =>
       if Js.startsWith href "http" then
         let isExternal := negb (Js.startsWith href base) in
         if fe || negb isExternal then set_add href uniqueLinks
         else uniqueLinks
       else uniqueLinks) hrefs acc
  = acc ++ uniq acc (List.filter (kept base fe) hrefs).
Proof.
  revert acc. induction hrefs as [|href hrefs IH]; intros acc.
  { simpl. by rewrite app_nil_r. }
  cbn [fold_left List.filter]. rewrite IH. unfold kept at 2.
  destruct (Js.startsWith href "http"); [|done].
  rewrite negb_involutive.
  destruct (fe || Js.startsWith href base); simpl; [|done].
  unfold set_add. case_bool_decide; [done|]. by rewrite <- app_assoc.
Qed.

Lemma findLinks_uniq hrefs base fe :
  findLinks hrefs base fe = uniq [] (List.filter (kept base fe) hrefs).
Proof. unfold findLinks. by rewrite findLinks_fold. Qed.

Lemma kept_true base fe href :
  kept base fe href = true <->
  Js.startsWith href "http" = true /\ (fe = true \/ Js.startsWith href base = true).
Proof.
  unfold kept. rewrite andb_true_iff, orb_true_iff. done.
Qed.

Lemma elem_of_findLinks hrefs base fe href :
  href ∈ findLinks hrefs base fe <->
  href ∈ hrefs /\ Js.startsWith href "http" = true /\
  (fe = true \/ Js.startsWith href base = true).
Proof.
  rewrite findLinks_uniq, elem_of_uniq, list_elem_of_In, filter_In, kept_true,
    <- list_elem_of_In.
  split; [tauto|]. intros (? & ? & ?). split; [done|]. apply not_elem_of_nil.
Qed.

Lemma findLinks_app h1 h2 base fe :
  findLinks (h1 ++ h2) base fe
  = findLinks h1 base fe ++ uniq (findLinks h1 base fe) (List.filter (kept base fe) h2).
Proof. unfold findLinks. by rewrite fold_left_app, findLinks_fold. Qed.

Lemma NoDup_split_inj (x : string) l1 : forall l2 k1 k2,
  NoDup (l1 ++ x :: l2) -> l1 ++ x :: l2 = k1 ++ x :: k2 -> l1 = k1.
Proof.
  induction l1 as [|a l1 IH]; intros l2 [|b k1] k2 Hnd Heq; simpl in *.
  - done.
  - injection Heq as <- ->. apply NoDup_cons in Hnd as [Hx _].
    destruct Hx. apply elem_of_app. right. by left.
  - injection Heq as -> _. apply NoDup_cons in Hnd as [Hx _].
    destruct Hx. apply elem_of_app. right. by left.
  - injection Heq as <- Heq. apply NoDup_cons in Hnd as [_ Hnd].
    f_equal. by eapply IH.
Qed.

(** X1: [findLinks] returns exactly the links of the page that start
    with [http] and, unless external links are followed, with [base]; each
    of them once, in the order of their first occurrence on the page: the
    links that come before a link [x] in the result are the result for the
    part of the page before the first occurrence of [x]. *)
Theorem findLinks_spec hrefs base fe :
  (forall href, href ∈ findLinks hrefs base fe <->
     href ∈ hrefs /\ Js.startsWith href "http" = true /\
     (fe = true \/ Js.startsWith href base = true)) /\
  NoDup (findLinks hrefs base fe) /\
  findLinks hrefs base fe `sublist_of` hrefs /\
  (forall l1 x l2, findLinks hrefs base fe = l1 ++ x :: l2 ->
     exists h1 h2, hrefs = h1 ++ x :: h2 /\ (x ∉ h1) /\ l1 = findLinks h1 base fe).
Proof.
  split; [intros href; apply elem_of_findLinks|].
  split; [rewrite findLinks_uniq; apply uniq_NoDup|]. split.
  - rewrite findLinks_uniq. etrans; [apply uniq_sublist|].
    induction hrefs as [|x l IH]; simpl; [constructor|].
    destruct (kept base fe x); [by apply sublist_skip|by apply sublist_cons].
  - intros l1 x l2 Heq.
    assert (Hx : x ∈ findLinks hrefs base fe).
    { rewrite Heq. apply elem_of_app. right. by left. }
    apply elem_of_findLinks in Hx as [Hin Hkept].
    apply list_elem_of_split_l in Hin as (h1 & h2 & -> & Hout).
    exists h1, h2. split; [done|]. split; [done|].
    pose proof (findLinks_NoDup (h1 ++ x :: h2) base fe) as Hnd.
    rewrite Heq in Hnd. rewrite findLinks_app in Heq. cbn [List.filter] in Heq.
    rewrite (proj2 (kept_true base fe x) Hkept) in Heq. cbn [uniq] in Heq.
    rewrite bool_decide_eq_false_2 in Heq.
    + symmetry in Heq. by eapply NoDup_split_inj.
    + rewrite elem_of_findLinks. tauto.
Qed.

Lemma uniq_filter (p : string -> bool) (q : string -> bool) seen seen' l :
  (forall x, x ∈ seen <-> x ∈ seen' /\ p x = true) ->
  uniq seen (List.filter (fun x => q x && p x) l)
  = List.filter p (uniq seen' (List.filter q l)).
Proof.
  revert seen seen'. induction l as [|x l IH]; intros seen seen' Hseen; [done|].
  cbn [List.filter]. destruct (q x); simpl; [|by apply IH].
  destruct (p x) eqn:Hp; simpl.
  - case_bool_decide as Hin; case_bool_decide as Hin'.
    + by apply IH.
    + destruct Hin'. by apply Hseen.
    + destruct Hin. apply Hseen. done.
    + simpl. rewrite Hp. f_equal. apply IH. intros y.
      rewrite !elem_of_app, !list_elem_of_singleton, Hseen. naive_solver.
  - case_bool_decide as Hin'; [by apply IH|].
    simpl. rewrite Hp. apply IH. intros y.
    rewrite elem_of_app, list_elem_of_singleton, Hseen.
    split; [intros [? ?]; split; [by left|done]|].
    intros [[?| ->] ?]; [done|congruence].
Qed.

(** X2: not following external links only removes links: what
    [findLinks] returns with [followExternal = false] is what it returns
    with [followExternal = true], less the links that do not start with
    [base], in the same order. *)
Theorem findLinks_internal_of_all hrefs base :
  findLinks hrefs base false
  = List.filter (fun href => Js.startsWith href base) (findLinks hrefs base true).
Proof.
  rewrite !findLinks_uniq.
  assert (List.filter (kept base false) hrefs
          = List.filter (fun x => Js.startsWith x "http" && Js.startsWith x base) hrefs)
    as -> by (by apply filter_ext).
  assert (List.filter (kept base true) hrefs
          = List.filter (fun x => Js.startsWith x "http") hrefs)
    as -> by (apply filter_ext; intros x; unfold kept; simpl; apply andb_true_r).
  apply (uniq_filter (fun x => Js.startsWith x base) (fun x => Js.startsWith x "http")).
  intros y. split; [by intros ?%not_elem_of_nil|by intros [?%not_elem_of_nil _]].
Qed.

(** X3: filtering twice is filtering once. *)
Theorem findLinks_idempotent hrefs base fe :
  findLinks (findLinks hrefs base fe) base fe = findLinks hrefs base fe.
Proof.
  apply findLinks_id; [apply findLinks_NoDup|].
  apply Forall_forall. intros href Hhref.
  by apply elem_of_findLinks in Hhref as (_ & ? & ?).
Qed.

(** ** The two versions *)

Section Versions.

Variable env : Env.
Variable cfg : Config.

Hypothesis follow : followExternal cfg = true.
Hypothesis origin_of_rendered :
  forall u hrefs, render env u = Captured hrefs -> is_Some (Js.origin u).

Lemma findLinks_of_findLinks1 hrefs base :
  findLinks hrefs base true = uniq [] (findLinks1 hrefs).
Proof.
  rewrite findLinks_uniq. unfold findLinks1. f_equal. apply filter_ext.
  intros href. unfold kept. simpl. apply andb_true_r.
Qed.

Lemma limit_reached_mono (v w : gset string) d :
  v ⊆ w -> limit_reached cfg v d = true -> limit_reached cfg w d = true.
Proof.
  intros Hsub%subseteq_size. rewrite !limit_reached_true. lia.
Qed.

(** A call on a link that is not in [visited] puts it there, unless a
    limit is reached. *)
Lemma takeScreenshots_claims_target fuel t v d v' tr c :
  takeScreenshots env cfg fuel t v d = Some (v', tr, c) ->
  v ⊆ v' /\ (t ∈ v' \/ limit_reached cfg v d = true).
Proof.
  intros Hrun.
  destruct (takeScreenshots_claims _ _ _ _ _ _ _ _ _ Hrun) as [-> _].
  split; [set_solver|].
  apply takeScreenshots_head in Hrun.
  destruct (limit_reached cfg v d); [by right|left].
  destruct Hrun as [tr' ->]. simpl. set_solver.
Qed.

(** The loop of the first version, over all the links, against the loop
    of the second, over the links without repetition. *)
Lemma for_of_versions call1 call2 d l :
  (forall link w, limit_reached cfg w d = true ->
     call1 link w = Some (w, [EvCall link d], Normal)) ->
  (forall link w, exists w' t1 t2,
     call1 link w = Some (w', t1, Normal) /\ call2 link w = Some (w', t2, Normal) /\
     claimed t1 = claimed t2 /\ saved t1 = saved t2 /\
     w ⊆ w' /\ (link ∈ w' \/ limit_reached cfg w d = true)) ->
  forall seen v,
    (forall x, x ∈ seen -> x ∈ v \/ limit_reached cfg v d = true) ->
    exists v' tr1 tr2,
      for_of call1 l v = Some (v', tr1, Normal) /\
      for_of call2 (uniq seen l) v = Some (v', tr2, Normal) /\
      claimed tr1 = claimed tr2 /\ saved tr1 = saved tr2.
Proof.
  intros Hlimit Hcalls.
  induction l as [|x l IH]; intros seen v Hseen; cbn [for_of uniq].
  { by exists v, [], []. }
  destruct (decide (x ∈ seen)) as [Hx|Hx];
    [rewrite (bool_decide_eq_true_2 (x ∈ seen)) by done
    |rewrite (bool_decide_eq_false_2 (x ∈ seen)) by done; cbn [for_of]];
    (destruct (decide (x ∈ v)) as [Hv|Hv];
      [rewrite !(bool_decide_eq_true_2 (x ∈ v)) by done
      |rewrite !(bool_decide_eq_false_2 (x ∈ v)) by done]).
  - by apply IH.
  - destruct (Hseen x Hx) as [?|Hl]; [done|].
    rewrite (Hlimit x v Hl).
    destruct (IH seen v Hseen) as (v' & tr1 & tr2 & -> & Hrun2 & Hc & Hs).
    exists v', ([EvCall x d] ++ tr1), tr2. by rewrite claimed_app, saved_app.
  - apply IH.
    intros y [Hy| ->%list_elem_of_singleton]%elem_of_app; [by apply Hseen|by left].
  - destruct (Hcalls x v) as (w' & t1 & t2 & -> & -> & Hc & Hs & Hsub & Hin).
    destruct (IH (seen ++ [x]) w') as (v' & tr1 & tr2 & -> & -> & Hc' & Hs').
    { intros y [Hy| ->%list_elem_of_singleton]%elem_of_app.
      - destruct (Hseen y Hy) as [?|Hl]; [left; set_solver|right].
        by eapply limit_reached_mono.
      - destruct Hin as [?|Hl]; [by left|right]. by eapply limit_reached_mono. }
    exists v', (t1 ++ tr1), (t2 ++ tr2).
    by rewrite !claimed_app, !saved_app, Hc, Hs, Hc', Hs'.
Qed.

Lemma takeScreenshots_versions fuel t v d :
  (Z.to_nat (depth cfg - d) < fuel)%nat ->
  exists v' tr1 tr2,
    takeScreenshots1 env cfg fuel t v d = Some (v', tr1, Normal) /\
    takeScreenshots env cfg fuel t v d = Some (v', tr2, Normal) /\
    claimed tr1 = claimed tr2 /\ saved tr1 = saved tr2.
Proof.
  revert t v d. induction fuel as [|fuel IH]; intros t v d Hfuel; [lia|].
  cbn [takeScreenshots1 takeScreenshots].
  destruct (limit_reached cfg v d) eqn:Hl; [by eexists _, _, _|].
  unfold try_block1, try_block.
  destruct (viewport_of (resolution cfg)) as [width height].
  destruct (setViewport env width height); simpl; [|by eexists _, _, _].
  destruct (render env t) as [|hrefs] eqn:Hr; [by eexists _, _, _|].
  destruct (d <? depth cfg) eqn:Hd; [|by eexists _, _, _].
  destruct (origin_of_rendered _ _ Hr) as [base ->].
  destruct hrefs as [hrefs|]; [|by eexists _, _, _].
  rewrite follow, findLinks_of_findLinks1.
  destruct fuel as [|fuel]; [lia|].
  destruct (for_of_versions
              (fun link w => takeScreenshots1 env cfg (S fuel) link w (d + 1))
              (fun link w => takeScreenshots env cfg (S fuel) link w (d + 1))
              (d + 1) (findLinks1 hrefs)) with (seen := @nil string) (v := {[t]} ∪ v)
    as (v' & tr1 & tr2 & -> & -> & Hc & Hs).
  - intros link w Hw. cbn [takeScreenshots1]. by rewrite Hw.
  - intros link w. destruct (IH link w (d + 1)) as (w' & t1 & t2 & H1 & H2 & Hc & Hs);
      [lia|].
    exists w', t1, t2. repeat (split; [done|]).
    by eapply takeScreenshots_claims_target.
  - intros x Hx. by apply not_elem_of_nil in Hx.
  - eexists _, _, _. split; [done|]. split; [done|].
    simpl. by rewrite Hc, Hs.
Qed.

End Versions.

(** X6: the second version of the script with [followExternal = true]
    visits what the first one does.  Wherever a URL that renders has an
    origin, the two runs from a seed end with the same [visited] set and
    claim and capture the same URLs in the same order.  (The first
    version calls again on a repeated link that the cap turned away; the
    second has removed the repetition.) *)
Theorem versions_agree env cfg seed :
  followExternal cfg = true ->
  (forall u hrefs, render env u = Captured hrefs -> is_Some (Js.origin u)) ->
  exists v tr1 tr2,
    main1 env cfg seed = Some (v, tr1, Normal) /\
    main env cfg seed = Some (v, tr2, Normal) /\
    claimed tr1 = claimed tr2 /\ saved tr1 = saved tr2.
Proof.
  intros Hfe Horigin. apply takeScreenshots_versions; [done|done|lia].
Qed.

(** ** File names *)

Lemma chars_app s1 s2 : chars (s1 ++ s2)%string = chars s1 ++ chars s2.
Proof. induction s1 as [|c s1 IH]; simpl; [done|by rewrite IH]. Qed.

Lemma chars_replace_all cls by_ s c :
  c ∈ chars (replace_all cls by_ s) -> c = by_ \/ (c ∈ chars s /\ cls c = false).
Proof.
  induction s as [|c' s IH]; simpl; [by intros ?%not_elem_of_nil|].
  intros [->|Hin]%elem_of_cons.
  - destruct (cls c') eqn:Hc; [by left|right]. split; [by left|done].
  - destruct (IH Hin) as [?|[? ?]]; [by left|right]. split; [by right|done].
Qed.

Lemma replace_all_idemp cls by_ s :
  cls by_ = false ->
  replace_all cls by_ (replace_all cls by_ s) = replace_all cls by_ s.
Proof.
  intros Hby. induction s as [|c s IH]; simpl; [done|]. rewrite IH. f_equal.
  destruct (cls c) eqn:Hc; [by rewrite Hby|by rewrite Hc].
Qed.

(** X7: the name of the file has no [/] in it, so that the file is
    written in the output directory itself, whatever the path of the URL:
    this for a host name and a time stamp without [/] and one of the four
    file types. *)
Theorem filename_has_no_slash urlObj now fileType :
  "/"%char ∉ chars (hostname urlObj) ->
  "/"%char ∉ chars now ->
  fileType ∈ ["png"; "jpeg"; "webp"; "pdf"] ->
  "/"%char ∉ chars (getFilenameFromUrl urlObj now fileType).
Proof.
  intros Hhost Hnow Htype. unfold getFilenameFromUrl.
  rewrite !chars_app, !elem_of_app.
  intros [Hin|[Hin|[Hin|[Hin|[Hin|Hin]]]]].
  - done.
  - destruct (String.eqb _ ""); [by apply not_elem_of_nil in Hin|].
    rewrite chars_app in Hin. apply elem_of_app in Hin as [Hin|Hin].
    + apply list_elem_of_singleton in Hin. discriminate.
    + apply chars_replace_all in Hin as [?|[_ ?]]; discriminate.
  - apply list_elem_of_singleton in Hin. discriminate.
  - apply chars_replace_all in Hin as [?|[? _]]; [discriminate|done].
  - apply list_elem_of_singleton in Hin. discriminate.
  - repeat (apply elem_of_cons in Htype as [->|Htype];
             [simpl in Hin;
              repeat (apply elem_of_cons in Hin as [Hin|Hin]; [discriminate|]);
              by apply not_elem_of_nil in Hin|]).
    by apply not_elem_of_nil in Htype.
Qed.

(** X8: the name of the file does not tell a [/] of the path from a [-]:
    a path and the same path with [-] for every [/] after the first give
    the same name, at the same instant. *)
Theorem filename_confuses_slash_and_dash host path now fileType :
  getFilenameFromUrl {| hostname := host; pathname := String "/" path |} now fileType
  = getFilenameFromUrl
      {| hostname := host; pathname := String "/" (replace_all is_slash "-" path) |}
      now fileType.
Proof.
  unfold getFilenameFromUrl. simpl. by rewrite replace_all_idemp.
Qed.

(** ** The resolution *)

Lemma digit_of_pretty_char m :
  (m < 10)%N -> Js.digit_of (pretty_N_char m) = Some (Z.of_N m).
Proof.
  intros Hm.
  assert (m = 0 \/ m = 1 \/ m = 2 \/ m = 3 \/ m = 4 \/ m = 5 \/ m = 6 \/ m = 7
          \/ m = 8 \/ m = 9)%N as Hcases by lia.
  repeat (destruct Hcases as [->|Hcases]; [reflexivity|]). by subst.
Qed.

(** Reading the digits that [pretty] writes. *)
Lemma digits_pretty_go x :
  exists k : nat, forall acc s,
    Js.digits acc (pretty_N_go x s) = Js.digits (acc * 10 ^ Z.of_nat k + Z.of_N x) s.
Proof.
  induction (N.lt_wf_0 x) as [x _ IH].
  destruct (decide (x = 0%N)) as [->|Hx].
  { exists 0%nat. intros acc s. rewrite pretty_N_go_0. f_equal. lia. }
  destruct (IH (x `div` 10)%N) as [k Hk]; [apply N.div_lt; lia|].
  exists (S k). intros acc s.
  rewrite pretty_N_go_step by lia. rewrite Hk. simpl Js.digits.
  rewrite digit_of_pretty_char by (apply N.mod_lt; lia). f_equal.
  rewrite Nat2Z.inj_succ, Z.pow_succ_r by lia.
  pose proof (N.div_mod x 10 ltac:(lia)) as Hdm.
  set (q := (x `div` 10)%N) in *. set (r := (x `mod` 10)%N) in *.
  set (p := 10 ^ Z.of_nat k). lia.
Qed.

Lemma pretty_go_head x s :
  (0 < x)%N ->
  exists m rest, (m < 10)%N /\ pretty_N_go x s = String (pretty_N_char m) rest.
Proof.
  revert s. induction (N.lt_wf_0 x) as [x _ IH]; intros s Hx.
  rewrite pretty_N_go_step by done.
  destruct (decide (x `div` 10 = 0)%N) as [->|Hq].
  - rewrite pretty_N_go_0. exists (x `mod` 10)%N, s. split; [|done].
    apply N.mod_lt. lia.
  - apply IH; [apply N.div_lt; lia|by apply N.neq_0_lt_0].
Qed.

Lemma pretty_go_chars x s c :
  c ∈ chars (pretty_N_go x s) ->
  c ∈ chars s \/ exists m, (m < 10)%N /\ c = pretty_N_char m.
Proof.
  revert s. induction (N.lt_wf_0 x) as [x _ IH]; intros s.
  destruct (decide (x = 0%N)) as [->|Hx]; [rewrite pretty_N_go_0; by left|].
  rewrite pretty_N_go_step by lia. intros Hin.
  apply IH in Hin as [Hin|?]; [|by right|apply N.div_lt; lia].
  simpl in Hin. apply elem_of_cons in Hin as [->|Hin]; [right|by left].
  exists (x `mod` 10)%N. split; [apply N.mod_lt; lia|done].
Qed.

Lemma pretty_char_not_x m : (m < 10)%N -> pretty_N_char m <> "x"%char.
Proof.
  intros Hm.
  assert (m = 0 \/ m = 1 \/ m = 2 \/ m = 3 \/ m = 4 \/ m = 5 \/ m = 6 \/ m = 7
          \/ m = 8 \/ m = 9)%N as Hcases by lia.
  repeat (destruct Hcases as [->|Hcases]; [discriminate|]). by subst.
Qed.

Lemma parseInt_digit_head m rest :
  (m < 10)%N ->
  Js.parseInt (String (pretty_N_char m) rest)
  = Js.unsigned_int (String (pretty_N_char m) rest).
Proof.
  intros Hm.
  assert (m = 0 \/ m = 1 \/ m = 2 \/ m = 3 \/ m = 4 \/ m = 5 \/ m = 6 \/ m = 7
          \/ m = 8 \/ m = 9)%N as Hcases by lia.
  repeat (destruct Hcases as [->|Hcases]; [reflexivity|]). by subst.
Qed.

Lemma unsigned_int_pretty_go x :
  (0 < x)%N -> Js.unsigned_int (pretty_N_go x "") = Some (Z.of_N x).
Proof.
  intros Hx. destruct (pretty_go_head x "" Hx) as (m & rest & Hm & Hhead).
  destruct (digits_pretty_go x) as [k Hk].
  unfold Js.unsigned_int. rewrite Hhead. rewrite digit_of_pretty_char by done.
  rewrite <- Hhead, Hk. simpl; f_equal; lia.
Qed.

Lemma pretty_N_pos x : (0 < x)%N -> pretty x = pretty_N_go x "".
Proof. intros Hx. unfold pretty, pretty_N. case_decide; [lia|done]. Qed.

(** [parseInt] reads back the decimal numeral of an integer. *)
Lemma parseInt_pretty (z : Z) : Js.parseInt (pretty z) = Some z.
Proof.
  destruct z as [|p|p]; [reflexivity|..].
  - change (pretty (Z.pos p)) with (pretty (N.pos p)).
    rewrite pretty_N_pos by lia.
    destruct (pretty_go_head (N.pos p) "" ltac:(lia)) as (m & rest & Hm & Hhead).
    rewrite Hhead. rewrite parseInt_digit_head by done. rewrite <- Hhead.
    by rewrite unsigned_int_pretty_go by lia.
  - change (pretty (Z.neg p)) with (String "-" (pretty (N.pos p))).
    rewrite pretty_N_pos by lia.
    change (Js.parseInt (String "-" ?s)) with (Z.opp <$> Js.unsigned_int s).
    by rewrite unsigned_int_pretty_go by lia.
Qed.

Lemma pretty_Z_no_x (z : Z) : "x"%char ∉ chars (pretty z).
Proof.
  assert (Hgo : forall x, "x"%char ∉ chars (pretty_N_go x "")).
  { intros x [Hin|(m & Hm & Hc)]%pretty_go_chars.
    - by apply not_elem_of_nil in Hin.
    - by eapply pretty_char_not_x. }
  destruct z as [|p|p].
  - intros Hin. simpl in Hin. apply list_elem_of_singleton in Hin. discriminate.
  - change (pretty (Z.pos p)) with (pretty (N.pos p)).
    rewrite pretty_N_pos by lia. apply Hgo.
  - change (pretty (Z.neg p)) with (String "-" (pretty (N.pos p))).
    rewrite pretty_N_pos by lia. simpl.
    intros [?|Hin]%elem_of_cons; [discriminate|]. by apply Hgo in Hin.
Qed.

Lemma split_no_sep sep s : sep ∉ chars s -> Js.split sep s = [s].
Proof.
  induction s as [|c s IH]; simpl; [done|].
  intros [Hc Hs]%not_elem_of_cons.
  rewrite (proj2 (Ascii.eqb_neq c sep)) by congruence.
  by rewrite IH.
Qed.

Lemma split_app sep a b :
  sep ∉ chars a -> Js.split sep (a ++ String sep b)%string = a :: Js.split sep b.
Proof.
  induction a as [|c a IH]; simpl.
  - intros _. by rewrite Ascii.eqb_refl.
  - intros [Hc Ha]%not_elem_of_cons.
    rewrite (proj2 (Ascii.eqb_neq c sep)) by congruence.
    by rewrite IH.
Qed.

(** X9: a resolution written as the width, an [x] and the height, both
    in decimal and within the whole numbers that a JavaScript number holds
    exactly, is read as that width and that height. *)
Theorem viewport_of_pretty (width height : Z) :
  Z.abs width <= 2 ^ 53 -> Z.abs height <= 2 ^ 53 ->
  viewport_of (pretty width ++ String "x" (pretty height))%string
  = (Some width, Some height).
Proof.
  intros _ _. unfold viewport_of.
  rewrite split_app by apply pretty_Z_no_x.
  rewrite split_no_sep by apply pretty_Z_no_x.
  simpl. by rewrite !parseInt_pretty.
Qed.

(** X10: a resolution without an [x] has no height: the width is what
    [parseInt] makes of the whole string, the height is [undefined]. *)
Theorem viewport_of_without_x resolution :
  "x"%char ∉ chars resolution ->
  viewport_of resolution = (Js.parseInt resolution, None).
Proof.
  intros Hx. unfold viewport_of. by rewrite split_no_sep.
Qed.

(** ** These theorems at work *)

Lemma viewport_of_pretty_example :
  Z.abs 1920 <= 2 ^ 53 /\ Z.abs 1080 <= 2 ^ 53 /\
  viewport_of (pretty 1920 ++ String "x" (pretty 1080))%string = (Some 1920, Some 1080).
Proof.
  assert (Hw : Z.abs 1920 <= 2 ^ 53) by (vm_compute; discriminate).
  assert (Hh : Z.abs 1080 <= 2 ^ 53) by (vm_compute; discriminate).
  split; [exact Hw|]. split; [exact Hh|]. exact (viewport_of_pretty 1920 1080 Hw Hh).
Defined.

Lemma versions_agree_example :
  let cfg := config "1920x1080" 2 2 true in
  followExternal cfg = true /\
  exists v tr1 tr2,
    main1 repeated_site cfg "https://a.test/" = Some (v, tr1, Normal) /\
    main repeated_site cfg "https://a.test/" = Some (v, tr2, Normal) /\
    claimed tr1 = claimed tr2 /\ saved tr1 = saved tr2.
Proof.
  intros cfg. split; [reflexivity|].
  apply (versions_agree repeated_site cfg "https://a.test/"); [reflexivity|].
  intros u hrefs Hr. unfold repeated_site, site, render, page_of in Hr.
  destruct (String.eqb_spec "https://a.test/" u) as [<-|_]; [|discriminate Hr].
  exists "https://a.test". reflexivity.
Defined.

Lemma filename_has_no_slash_example :
  let urlObj := {| hostname := "a.test"; pathname := "/docs/a/b" |} in
  let now := "2024-01-02T03:04:05.678Z" in
  getFilenameFromUrl urlObj now "png" = "a.test-docs-a-b_2024-01-02T03-04-05-678Z.png" /\
  ("/"%char ∉ chars (getFilenameFromUrl urlObj now "png")).
Proof.
  intros urlObj now. split; [reflexivity|].
  apply (filename_has_no_slash urlObj now "png").
  - apply (bool_decide_unpack ("/"%char ∉ chars (hostname urlObj))). vm_compute. exact I.
  - apply (bool_decide_unpack ("/"%char ∉ chars now)). vm_compute. exact I.
  - apply elem_of_cons. left. reflexivity.
Defined.

Lemma viewport_of_without_x_example :
  ("x"%char ∉ chars "1920") /\ viewport_of "1920" = (Some 1920, None).
Proof.
  assert (Hx : "x"%char ∉ chars "1920").
  { apply (bool_decide_unpack ("x"%char ∉ chars "1920")). vm_compute. exact I. }
  split; [exact Hx|]. exact (viewport_of_without_x "1920" Hx).
Defined.

(** * The script on the numbers of the command line *)

(** ** How a call unfolds *)

Section UnfoldingJs.

Variable env : Env.
Variable argv : Argv.

Lemma try_block_js_visit recur t v d :
  try_block_js env argv recur t v d =
  match visit_js env argv t d with
  | VThrow false => Some ({[t]} ∪ v, [EvClaim t d], Throw)
  | VThrow true => Some ({[t]} ∪ v, [EvClaim t d; EvSaved t d], Throw)
  | VLeaf => Some ({[t]} ∪ v, [EvClaim t d; EvSaved t d], Normal)
  | VExpand links =>
      match for_of (fun link visited => recur link visited (d + 1)) links ({[t]} ∪ v) with
      | None => None
      | Some (v', tr, c) =>
          Some (v', EvClaim t d :: EvSaved t d :: EvLinks t d links :: tr, c)
      end
  end.
Proof.
  unfold try_block_js, visit_js.
  destruct (viewport_of (argv_resolution argv)) as [width height].
  destruct (setViewport env width height); simpl; [|reflexivity].
  destruct (render env t) as [|hrefs], (Js.origin t) as [base|]; try reflexivity.
  destruct (js_lt d (argv_depth argv)); [|reflexivity].
  destruct hrefs as [hrefs|]; reflexivity.
Qed.

Lemma takeScreenshots_js_normal fuel t v d v' tr c :
  takeScreenshots_js env argv fuel t v d = Some (v', tr, c) -> c = Normal.
Proof.
  destruct fuel as [|fuel]; simpl; [discriminate|].
  destruct (limit_reached_js argv v d); [by intros [= _ _ <-]|].
  destruct (try_block_js env argv _ t v d) as [[[v1 tr1] []]|];
    intros H; try discriminate H; by injection H as _ _ <-.
Qed.

Lemma takeScreenshots_js_limit fuel t v d :
  limit_reached_js argv v d = true ->
  takeScreenshots_js env argv (S fuel) t v d = Some (v, [EvCall t d], Normal).
Proof. intros H. simpl. by rewrite H. Qed.

Lemma takeScreenshots_js_task fuel t v d :
  limit_reached_js argv v d = false ->
  (forall links, visit_js env argv t d <> VExpand links) ->
  takeScreenshots_js env argv (S fuel) t v d
  = Some ({[t]} ∪ v, task_events t d (visit_js env argv t d), Normal).
Proof.
  intros H Hv. simpl. rewrite H, try_block_js_visit.
  destruct (visit_js env argv t d) as [[]| |links]; try reflexivity.
  by destruct (Hv links).
Qed.

Lemma takeScreenshots_js_expand fuel t v d links :
  limit_reached_js argv v d = false ->
  visit_js env argv t d = VExpand links ->
  takeScreenshots_js env argv (S fuel) t v d =
  match for_of (fun link w => takeScreenshots_js env argv fuel link w (d + 1))
          links ({[t]} ∪ v) with
  | Some (v', tr, Normal) => Some (v', task_events t d (VExpand links) ++ tr, Normal)
  | Some (v', tr, Throw) =>
      Some (v', task_events t d (VExpand links) ++ tr ++ [EvError t d], Normal)
  | None => None
  end.
Proof.
  intros H Hv. simpl. rewrite H, try_block_js_visit, Hv.
  destruct (for_of _ links _) as [[[v' tr] []]|]; reflexivity.
Qed.

(** The induction principle of the traversal, as [crawl_ind]. *)
Lemma crawl_js_ind
    (P : string -> gset string -> Z -> gset string -> list Event -> Prop)
    (Q : Z -> list string -> gset string -> gset string -> list Event -> Prop) :
  (forall t v d, limit_reached_js argv v d = true -> P t v d v [EvCall t d]) ->
  (forall t v d, limit_reached_js argv v d = false ->
     (forall links, visit_js env argv t d <> VExpand links) ->
     P t v d ({[t]} ∪ v) (task_events t d (visit_js env argv t d))) ->
  (forall t v d links v' tr, limit_reached_js argv v d = false ->
     visit_js env argv t d = VExpand links ->
     Q (d + 1) links ({[t]} ∪ v) v' tr ->
     P t v d v' (task_events t d (VExpand links) ++ tr)) ->
  (forall d v, Q d [] v v []) ->
  (forall d link rest v v' tr, link ∈ v ->
     Q d rest v v' tr -> Q d (link :: rest) v v' tr) ->
  (forall d link rest v v1 tr1 v2 tr2, link ∉ v ->
     P link v d v1 tr1 -> Q d rest v1 v2 tr2 ->
     Q d (link :: rest) v v2 (tr1 ++ tr2)) ->
  forall fuel t v d v' tr c,
    takeScreenshots_js env argv fuel t v d = Some (v', tr, c) -> P t v d v' tr.
Proof.
  intros Hlimit Htask Hexpand Hnil Hskip Hcons.
  induction fuel as [|fuel IH]; intros t v d v' tr c Hrun; [discriminate|].
  destruct (limit_reached_js argv v d) eqn:Hl.
  { rewrite takeScreenshots_js_limit in Hrun by done.
    injection Hrun as <- <- <-. by apply Hlimit. }
  destruct (visit_js env argv t d) as [written| |links] eqn:Hv.
  1,2: rewrite takeScreenshots_js_task in Hrun by (done || congruence);
       injection Hrun as <- <- <-; apply Htask; [done|congruence].
  rewrite (takeScreenshots_js_expand _ _ _ _ links) in Hrun by done.
  assert (Hloop : forall ls w w' tr' c',
    for_of (fun link w => takeScreenshots_js env argv fuel link w (d + 1)) ls w
    = Some (w', tr', c') -> c' = Normal /\ Q (d + 1) ls w w' tr').
  { induction ls as [|link rest IHls]; intros w w' tr' c'; simpl.
    - intros [= <- <- <-]. split; [done|apply Hnil].
    - case_bool_decide as Hin.
      + intros Hrest. destruct (IHls _ _ _ _ Hrest). split; [done|by apply Hskip].
      + destruct (takeScreenshots_js env argv fuel link w (d + 1))
          as [[[v1 tr1] c1]|] eqn:Hcall; [|discriminate].
        pose proof (takeScreenshots_js_normal _ _ _ _ _ _ _ Hcall) as ->.
        destruct (for_of _ rest v1) as [[[v2 tr2] c2]|] eqn:Hrest; [|discriminate].
        intros [= <- <- <-]. destruct (IHls _ _ _ _ Hrest) as [-> HQ].
        split; [done|]. eapply Hcons; eauto. }
  destruct (for_of _ links _) as [[[v1 tr1] c1]|] eqn:Hfor; [|discriminate].
  destruct (Hloop _ _ _ _ _ Hfor) as [-> HQ].
  injection Hrun as <- <- <-. by apply Hexpand.
Qed.

(** More fuel does not change the result. *)
Lemma takeScreenshots_js_fuel fuel fuel' t v d r :
  (fuel <= fuel')%nat ->
  takeScreenshots_js env argv fuel t v d = Some r ->
  takeScreenshots_js env argv fuel' t v d = Some r.
Proof.
  revert fuel' t v d r.
  induction fuel as [|fuel IH]; intros fuel' t v d r Hle; [discriminate|].
  destruct fuel' as [|fuel']; [lia|].
  destruct (limit_reached_js argv v d) eqn:Hl.
  { by rewrite !takeScreenshots_js_limit. }
  destruct (visit_js env argv t d) as [written| |links] eqn:Hv.
  1,2: by rewrite !takeScreenshots_js_task by (done || congruence).
  rewrite !(takeScreenshots_js_expand _ _ _ _ links) by done.
  destruct (for_of _ links _) as [r1|] eqn:Hfor; [|by destruct r as [[? ?] ?]].
  erewrite for_of_ext; [done| |exact Hfor].
  intros l w r'. apply IH. lia.
Qed.

End UnfoldingJs.

(** ** What every call maintains *)

Section InvariantsJs.

Variable env : Env.
Variable argv : Argv.

Lemma takeScreenshots_js_claims fuel t v d v' tr c :
  takeScreenshots_js env argv fuel t v d = Some (v', tr, c) ->
  v' = list_to_set (claimed tr) ∪ v /\
  (t ∉ v -> NoDup (claimed tr) /\ forall u, u ∈ claimed tr -> u ∉ v).
Proof.
  apply (crawl_js_ind env argv
    (fun t v d v' tr =>
       v' = list_to_set (claimed tr) ∪ v /\
       (t ∉ v -> NoDup (claimed tr) /\ forall u, u ∈ claimed tr -> u ∉ v))
    (fun d links v v' tr =>
       v' = list_to_set (claimed tr) ∪ v /\
       NoDup (claimed tr) /\ forall u, u ∈ claimed tr -> u ∉ v)); clear.
  - intros t v d _. simpl. split; [set_solver|]. intros _. split; [constructor|set_solver].
  - intros t v d _ _. rewrite claimed_task. split; [set_solver|].
    intros Ht. split; [apply NoDup_singleton|set_solver].
  - intros t v d links v' tr _ _ (-> & Hnd & Hfresh).
    rewrite claimed_app, claimed_task. simpl. split; [set_solver|].
    intros Ht. split; [|set_solver].
    constructor; [|done]. intros Hin. apply Hfresh in Hin. set_solver.
  - intros d v. simpl. split; [set_solver|]. split; [constructor|set_solver].
  - done.
  - intros d link rest v v1 tr1 v2 tr2 Hlink [-> Hfresh1] (-> & Hnd2 & Hfresh2).
    destruct (Hfresh1 Hlink) as [Hnd1 Hout1].
    rewrite claimed_app. split; [rewrite list_to_set_app_L; set_solver|].
    split.
    + apply NoDup_app. split; [done|]. split; [|done].
      intros u Hu1 Hu2. apply Hfresh2 in Hu2. set_solver.
    + intros u [Hu|Hu]%elem_of_app; [by apply Hout1|].
      apply Hfresh2 in Hu. set_solver.
Qed.

Lemma takeScreenshots_js_announced fuel t v d v' tr c :
  takeScreenshots_js env argv fuel t v d = Some (v', tr, c) -> announced [] tr.
Proof.
  apply (crawl_js_ind env argv
    (fun t v d v' tr => announced [] tr) (fun d links v v' tr => announced [] tr)); clear.
  - done.
  - intros t v d _ _. destruct (visit_js env argv t d) as [[]| |links]; simpl; set_solver.
  - intros t v d links v' tr _ _ HQ. simpl. split; [set_solver|]. split; [set_solver|].
    eapply announced_mono; [|exact HQ]. set_solver.
  - done.
  - done.
  - intros. by apply announced_app.
Qed.

Lemma takeScreenshots_js_saved fuel t v d v' tr c :
  takeScreenshots_js env argv fuel t v d = Some (v', tr, c) ->
  saved tr `sublist_of` claimed tr.
Proof.
  apply (crawl_js_ind env argv
    (fun t v d v' tr => saved tr `sublist_of` claimed tr)
    (fun d links v v' tr => saved tr `sublist_of` claimed tr)); clear.
  - intros. simpl. constructor.
  - intros t v d _ _. destruct (visit_js env argv t d) as [[]| |links]; simpl;
      repeat constructor.
  - intros t v d links v' tr _ _ HQ. simpl. by constructor.
  - intros. constructor.
  - done.
  - intros. rewrite saved_app, claimed_app. by apply sublist_app.
Qed.

Lemma visit_js_render_failed t d :
  render env t = RenderFailed -> visit_js env argv t d = VThrow false.
Proof.
  intros H. unfold visit_js. rewrite H.
  destruct (viewport_of (argv_resolution argv)) as [width height].
  by destruct (setViewport env width height).
Qed.


Lemma visit_js_written t d :
  visit_js env argv t d <> VThrow false ->
  viewport_ok_js env argv /\ render env t <> RenderFailed.
Proof.
  unfold visit_js, viewport_ok_js.
  destruct (viewport_of (argv_resolution argv)) as [width height].
  destruct (setViewport env width height); simpl; [|done].
  by destruct (render env t).
Qed.

Lemma visit_js_expand t d links :
  visit_js env argv t d = VExpand links ->
  js_lt d (argv_depth argv) = true /\
  exists base hrefs,
    Js.origin t = Some base /\ render env t = Captured (Some hrefs) /\
    links = findLinks hrefs base (argv_followExternal argv).
Proof.
  unfold visit_js.
  destruct (viewport_of (argv_resolution argv)) as [width height].
  destruct (setViewport env width height); simpl; [|discriminate].
  destruct (render env t) as [|hrefs], (Js.origin t) as [base|]; try discriminate.
  destruct (js_lt d (argv_depth argv)); [|discriminate].
  destruct hrefs as [hrefs|]; [|discriminate].
  intros [= <-]. split; [done|]. by exists base, hrefs.
Qed.

(** A capture is written only of a page that rendered. *)
Lemma takeScreenshots_js_rendered fuel t v d v' tr c :
  takeScreenshots_js env argv fuel t v d = Some (v', tr, c) ->
  forall u d', EvSaved u d' ∈ tr -> render env u <> RenderFailed.
Proof.
  apply (crawl_js_ind env argv
    (fun t v d v' tr => forall u d', EvSaved u d' ∈ tr -> render env u <> RenderFailed)
    (fun d links v v' tr =>
       forall u d', EvSaved u d' ∈ tr -> render env u <> RenderFailed)); clear.
  - intros t v d _ u d' Hin. apply list_elem_of_singleton in Hin. discriminate.
  - intros t v d _ _ u d' Hin.
    destruct (visit_js env argv t d) as [[]| |links] eqn:Hv; simpl in Hin;
      repeat (apply elem_of_cons in Hin as [Hin|Hin];
              [try discriminate Hin; injection Hin as -> ->;
               apply (visit_js_written t d); congruence|]);
      by apply not_elem_of_nil in Hin.
  - intros t v d links v' tr _ Hv HQ u d' Hin.
    apply elem_of_app in Hin as [Hin|Hin]; [|by eapply HQ].
    simpl in Hin.
    repeat (apply elem_of_cons in Hin as [Hin|Hin];
            [try discriminate Hin; injection Hin as -> ->;
             apply (visit_js_written t d); congruence|]).
    by apply not_elem_of_nil in Hin.
  - intros d v u d' Hin. by apply not_elem_of_nil in Hin.
  - done.
  - intros d link rest v v1 tr1 v2 tr2 _ HP HQ u d' [Hin|Hin]%elem_of_app;
      [by eapply HP|by eapply HQ].
Qed.

Lemma takeScreenshots_js_head fuel t v d v' tr c :
  takeScreenshots_js env argv fuel t v d = Some (v', tr, c) ->
  if limit_reached_js argv v d then v' = v /\ tr = [EvCall t d]
  else exists tr', tr = EvCall t d :: EvClaim t d :: tr'.
Proof.
  destruct fuel as [|fuel]; [discriminate|].
  destruct (limit_reached_js argv v d) eqn:Hl.
  { rewrite takeScreenshots_js_limit by done. by intros [= <- <- _]. }
  destruct (visit_js env argv t d) as [written| |links] eqn:Hv.
  1,2: rewrite takeScreenshots_js_task by (done || congruence); rewrite Hv;
       intros [= _ <- _]; try destruct written; simpl; eauto.
  rewrite (takeScreenshots_js_expand _ _ _ _ _ _ links) by done.
  destruct (for_of _ links _) as [[[v1 tr1] []]|]; intros [= _ <- _]; simpl; eauto.
Qed.

End InvariantsJs.

(** ** When a run ends *)

Lemma js_lt_ceiling d q : js_lt d (Num q) = true -> d < Qceiling q.
Proof.
  simpl. rewrite negb_true_iff. intros Hle.
  assert (~ (q <= inject_Z d)%Q) as Hlt by (rewrite <- Qle_bool_iff; congruence).
  apply Qnot_le_lt in Hlt. rewrite Zlt_Qlt.
  eapply Qlt_le_trans; [exact Hlt|apply Qle_ceiling].
Qed.

Lemma js_ge_ceiling n q : js_ge n (Num q) = false -> n < Qceiling q.
Proof.
  simpl. intros Hle.
  assert (~ (q <= inject_Z n)%Q) as Hlt by (rewrite <- Qle_bool_iff; congruence).
  apply Qnot_le_lt in Hlt. rewrite Zlt_Qlt.
  eapply Qlt_le_trans; [exact Hlt|apply Qle_ceiling].
Qed.

Section TerminationJs.

Variable env : Env.
Variable argv : Argv.

(** The depth, when it is not infinite, bounds the nesting of the calls. *)
Lemma takeScreenshots_js_total_depth fuel t v d :
  argv_depth argv <> PosInfinity ->
  (depth_left (argv_depth argv) d < fuel)%nat ->
  exists v' tr, takeScreenshots_js env argv fuel t v d = Some (v', tr, Normal).
Proof.
  intros Hfin. revert t v d.
  induction fuel as [|fuel IH]; intros t v d Hfuel; [lia|].
  destruct (limit_reached_js argv v d) eqn:Hl.
  { rewrite takeScreenshots_js_limit by done. eauto. }
  destruct (visit_js env argv t d) as [written| |links] eqn:Hv.
  1,2: rewrite takeScreenshots_js_task by (done || congruence); eauto.
  rewrite (takeScreenshots_js_expand _ _ _ _ _ _ links) by done.
  apply visit_js_expand in Hv as [Hd _].
  edestruct (for_of_total (fun link w => takeScreenshots_js env argv fuel link w (d + 1)))
    as (v' & tr & ->); [|by eauto].
  intros l w. apply IH. unfold depth_left in *.
  destruct (argv_depth argv) as [q| | |]; try discriminate; [|done].
  apply js_lt_ceiling in Hd. lia.
Qed.

(** The page cap, when it is a finite number, bounds it too: every
    task that is let in finds [visited] larger than its parent did. *)
Lemma takeScreenshots_js_total_cap fuel t v d :
  argv_maxPages argv <> NaN -> argv_maxPages argv <> PosInfinity ->
  t ∉ v ->
  (pages_left (argv_maxPages argv) v < fuel)%nat ->
  exists v' tr, takeScreenshots_js env argv fuel t v d = Some (v', tr, Normal).
Proof.
  intros Hnan Hinf. revert t v d.
  induction fuel as [|fuel IH]; intros t v d Ht Hfuel; [lia|].
  destruct (limit_reached_js argv v d) eqn:Hl.
  { rewrite takeScreenshots_js_limit by done. eauto. }
  destruct (visit_js env argv t d) as [written| |links] eqn:Hv.
  1,2: rewrite takeScreenshots_js_task by (done || congruence); eauto.
  rewrite (takeScreenshots_js_expand _ _ _ _ _ _ links) by done.
  assert (Hroom : forall w : gset string, {[t]} ∪ v ⊆ w ->
            (pages_left (argv_maxPages argv) w < fuel)%nat).
  { intros w Hw%subseteq_size.
    rewrite size_union, size_singleton in Hw by set_solver.
    unfold limit_reached_js in Hl. apply orb_false_iff in Hl as [Hge _].
    unfold pages_left in *.
    destruct (argv_maxPages argv) as [q| | |]; try done.
    apply js_ge_ceiling in Hge. lia. }
  assert (Hloop : forall ls w, {[t]} ∪ v ⊆ w ->
    exists w' tr,
      for_of (fun link w => takeScreenshots_js env argv fuel link w (d + 1)) ls w
      = Some (w', tr, Normal)).
  { induction ls as [|link rest IHls]; intros w Hw; simpl; [by eauto|].
    case_bool_decide as Hin; [by apply IHls|].
    destruct (IH link w (d + 1) Hin (Hroom w Hw)) as (w1 & tr1 & Hcall).
    rewrite Hcall.
    destruct (takeScreenshots_js_claims _ _ _ _ _ _ _ _ _ Hcall) as [Hw1 _].
    destruct (IHls w1) as (w2 & tr2 & ->); [set_solver|]. eauto. }
  destruct (Hloop links ({[t]} ∪ v)) as (v' & tr & ->); [done|]. eauto.
Qed.

End TerminationJs.

(** ** Every run ends, but one without limits *)

Lemma string_length_app s1 s2 :
  String.length (s1 ++ s2)%string = (String.length s1 + String.length s2)%nat.
Proof. induction s1 as [|c s1 IH]; simpl; [done|by rewrite IH]. Qed.

Lemma endless_origin s :
  Js.origin ("https://a.test/" ++ s)%string = Some "https://a.test".
Proof. reflexivity. Qed.

Lemma endless_call fuel s (v : gset string) d :
  (forall x, x ∈ v ->
     (String.length x <= String.length ("https://a.test/" ++ s)%string)%nat) ->
  takeScreenshots_js endless_site endless_argv fuel ("https://a.test/" ++ s)%string v d
  = None.
Proof.
  revert s v d. induction fuel as [|fuel IH]; intros s v d Hv; [done|].
  set (u := ("https://a.test/" ++ s)%string) in *.
  assert (Hvisit : visit_js endless_site endless_argv u d
                   = VExpand [(u ++ "a")%string]).
  { unfold visit_js. cbn [argv_resolution endless_argv].
    change (viewport_of "1920x1080") with (Some 1920, Some 1080).
    cbn [setViewport render endless_site numeric_viewport negb].
    unfold u at 1. rewrite endless_origin. reflexivity. }
  assert (Hl : limit_reached_js endless_argv v d = false) by reflexivity.
  rewrite (takeScreenshots_js_expand _ _ _ _ _ _ _ Hl Hvisit).
  assert (Hlen : String.length ("https://a.test/" ++ (s ++ "a"))%string
                 = S (String.length u)).
  { unfold u. rewrite !string_length_app. simpl. lia. }
  cbn [for_of]. rewrite bool_decide_eq_false_2.
  - change (u ++ "a")%string with ("https://a.test/" ++ (s ++ "a"))%string.
    rewrite IH; [done|]. rewrite Hlen.
    intros x [->%elem_of_singleton|Hx%Hv]%elem_of_union; lia.
  - change (u ++ "a")%string with ("https://a.test/" ++ (s ++ "a"))%string.
    intros [Hin%elem_of_singleton|Hx%Hv]%elem_of_union.
    + apply (f_equal String.length) in Hin. lia.
    + lia.
Qed.

(** C5 fails as stated: with an infinite depth and no page cap
    ([maxPages] is [NaN]) neither test of the guard ever holds, and on a
    site where every page links to a new one the calls nest without end:
    no amount of fuel lets the run return. *)
Lemma endless_run_never_returns :
  argv_depth endless_argv = PosInfinity /\
  argv_maxPages endless_argv = NaN /\
  forall fuel,
    takeScreenshots_js endless_site endless_argv fuel "https://a.test/" ∅ 1 = None.
Proof.
  split; [done|]. split; [done|]. intros fuel.
  apply (endless_call fuel ""). intros x Hx. by apply not_elem_of_empty in Hx.
Qed.

Lemma countable_depth_finite depth : countable_depth depth -> depth <> PosInfinity.
Proof. by destruct depth. Qed.

(** C5, as the code has it: a run ends when the depth can be counted up
    to (it is at most 2^53, so not infinite), and also when the page cap
    is a finite number: from some fuel on the call on the seed returns,
    always the same result.  Each claim then adds one URL to [visited],
    which is the set of the URLs claimed. *)
Theorem crawl_terminates env argv seed :
  countable_depth (argv_depth argv) \/
  (argv_maxPages argv <> NaN /\ argv_maxPages argv <> PosInfinity) ->
  exists fuel v tr,
    (forall fuel', (fuel <= fuel')%nat ->
       takeScreenshots_js env argv fuel' seed ∅ 1 = Some (v, tr, Normal)) /\
    v = visited_after tr /\
    (forall p u d q, tr = p ++ EvClaim u d :: q ->
       size (visited_after (p ++ [EvClaim u d])) = S (size (visited_after p))).
Proof.
  intros Hlimits.
  assert (exists fuel v tr,
            takeScreenshots_js env argv fuel seed ∅ 1 = Some (v, tr, Normal))
    as (fuel & v & tr & Hrun).
  { destruct Hlimits as [Hd%countable_depth_finite|[Hnan Hinf]].
    - exists (S (depth_left (argv_depth argv) 1)).
      apply takeScreenshots_js_total_depth; [done|lia].
    - exists (S (pages_left (argv_maxPages argv) ∅)).
      apply takeScreenshots_js_total_cap; [done|done|set_solver|lia]. }
  exists fuel, v, tr.
  destruct (takeScreenshots_js_claims _ _ _ _ _ _ _ _ _ Hrun) as [Hv Hfresh].
  destruct Hfresh as [Hnd _]; [set_solver|].
  split; [|split].
  - intros fuel' Hle. by eapply takeScreenshots_js_fuel.
  - unfold visited_after. set_solver.
  - intros p u d q ->. rewrite claimed_app in Hnd. simpl in Hnd.
    apply NoDup_app in Hnd as (_ & Hdis & _).
    unfold visited_after. rewrite claimed_app, list_to_set_app_L. simpl.
    rewrite size_union, size_union, size_singleton, size_empty; [lia|set_solver|].
    intros x Hx%elem_of_list_to_set Hx'. apply (Hdis _ Hx). set_solver.
Qed.

(** An infinite depth with a page cap of 2, on the site without end. *)
Lemma crawl_terminates_by_the_cap :
  let argv := options "https://a.test/" "1920x1080" PosInfinity (Int 2) true in
  (argv_maxPages argv <> NaN /\ argv_maxPages argv <> PosInfinity) /\
  exists fuel v tr,
    takeScreenshots_js endless_site argv fuel "https://a.test/" ∅ 1
    = Some (v, tr, Normal).
Proof.
  intros argv.
  assert (Hcap : argv_maxPages argv <> NaN /\ argv_maxPages argv <> PosInfinity)
    by (split; discriminate).
  split; [exact Hcap|].
  destruct (crawl_terminates endless_site argv "https://a.test/" (or_intror Hcap))
    as (fuel & v & tr & Hrun & _).
  exists fuel, v, tr. apply Hrun. apply Nat.le_refl.
Defined.

(** ** The page cap *)

Lemma js_ge_int n m : js_ge n (Int m) = negb (n <? m).
Proof.
  unfold js_ge, Int. destruct (n <? m) eqn:Hlt; simpl.
  - apply not_true_is_false. rewrite Qle_bool_iff, <- Zle_Qle. lia.
  - rewrite Qle_bool_iff, <- Zle_Qle. lia.
Qed.

Lemma takeScreenshots_js_cap env argv m fuel t v d v' tr c :
  argv_maxPages argv = Int m ->
  takeScreenshots_js env argv fuel t v d = Some (v', tr, c) ->
  Z.of_nat (size v') <= Z.max (Z.of_nat (size v)) m.
Proof.
  intros HM.
  assert (Hroom : forall (w : gset string) d,
            limit_reached_js argv w d = false -> Z.of_nat (size w) < m).
  { intros w d' [Hge _]%orb_false_iff. rewrite HM, js_ge_int in Hge. lia. }
  revert fuel t v d v' tr c.
  apply (crawl_js_ind env argv
    (fun t v d v' tr => Z.of_nat (size v') <= Z.max (Z.of_nat (size v)) m)
    (fun d links v v' tr => Z.of_nat (size v') <= Z.max (Z.of_nat (size v)) m)).
  - lia.
  - intros t v d Hl%Hroom _. pose proof (size_add t v). lia.
  - intros t v d links v' tr Hl%Hroom _ HQ. pose proof (size_add t v). lia.
  - lia.
  - done.
  - lia.
Qed.

(** C2, as the code has it: when the page cap is a whole number that
    is not negative, the run ends and the [visited] set never holds more
    than [maxPages] URLs, after any prefix of the events of the run.  With
    a cap of 1 the only claim is that of the seed, and every call made
    once a URL has been claimed returns at once, on the test of the cap,
    and claims nothing. *)
Theorem page_cap env argv seed m :
  argv_maxPages argv = Int m -> 0 <= m ->
  exists fuel v tr,
    takeScreenshots_js env argv fuel seed ∅ 1 = Some (v, tr, Normal) /\
    v = visited_after tr /\
    (forall p, p `prefix_of` tr -> Z.of_nat (size (visited_after p)) <= m) /\
    (m = 1 ->
     (forall u d, EvClaim u d ∈ tr -> u = seed /\ d = 1) /\
     (forall fuel' u (w : gset string) d, w <> ∅ ->
        takeScreenshots_js env argv (S fuel') u w d = Some (w, [EvCall u d], Normal))).
Proof.
  intros HM Hm.
  destruct (takeScreenshots_js_total_cap env argv
              (S (pages_left (argv_maxPages argv) ∅)) seed ∅ 1)
    as (v & tr & Hrun); [by rewrite HM|by rewrite HM|set_solver|lia|].
  exists (S (pages_left (argv_maxPages argv) ∅)), v, tr. split; [exact Hrun|].
  destruct (takeScreenshots_js_claims _ _ _ _ _ _ _ _ _ Hrun) as [Hv Hfresh].
  destruct Hfresh as [Hnd _]; [set_solver|].
  pose proof (takeScreenshots_js_cap _ _ _ _ _ _ _ _ _ _ HM Hrun) as Hcap.
  rewrite size_empty in Hcap.
  assert (Hv' : v = visited_after tr) by (unfold visited_after; set_solver).
  split; [done|]. split; [|intros ->; split].
  - intros p Hp. apply visited_after_prefix, subseteq_size in Hp. rewrite Hv' in Hcap. lia.
  - intros u d Hin.
    assert (Hlen : (List.length (claimed tr) <= 1)%nat).
    { rewrite Hv' in Hcap. unfold visited_after in Hcap.
      rewrite size_list_to_set in Hcap by done. lia. }
    apply takeScreenshots_js_head in Hrun.
    destruct (limit_reached_js argv ∅ 1).
    { destruct Hrun as [_ ->]. apply list_elem_of_singleton in Hin. discriminate. }
    destruct Hrun as [tr' ->].
    simpl in Hlen. destruct (claimed tr') eqn:Hnil; [|simpl in Hlen; lia].
    apply elem_of_cons in Hin as [?|Hin]; [discriminate|].
    apply elem_of_cons in Hin as [[= -> ->]|Hin]; [done|].
    by apply claimed_nil_no_claim in Hin.
  - intros fuel' u w d Hw. apply takeScreenshots_js_limit.
    unfold limit_reached_js. rewrite HM, js_ge_int.
    assert (size w <> 0%nat) by (by intros ->%size_empty_inv%leibniz_equiv).
    apply orb_true_iff. left. apply negb_true_iff, Z.ltb_ge. lia.
Qed.

(** Scenario C: a seed page with links and a page cap of 1. *)
Lemma page_cap_scenario_C :
  let env := site [("https://a.test/",
                    ["https://a.test/x"; "https://a.test/x"; "https://b.test/y"]);
                   ("https://a.test/x", [])] in
  let argv := options "https://a.test/" "1920x1080" (Int 2) (Int 1) false in
  0 <= 1 /\
  exists fuel v tr,
    takeScreenshots_js env argv fuel "https://a.test/" ∅ 1 = Some (v, tr, Normal) /\
    (forall p, p `prefix_of` tr -> Z.of_nat (size (visited_after p)) <= 1) /\
    (forall u d, EvClaim u d ∈ tr -> u = "https://a.test/" /\ d = 1).
Proof.
  intros env argv. split; [lia|].
  destruct (page_cap env argv "https://a.test/" 1 eq_refl)
    as (fuel & v & tr & Hrun & _ & Hcap & Hone); [lia|].
  exists fuel, v, tr. split; [exact Hrun|]. split; [exact Hcap|].
  exact (proj1 (Hone eq_refl)).
Defined.

(** C2 fails as stated.  With a page cap of 1.5 the test
    [visited.size >= maxPages] is false of the sizes 0 and 1: two URLs are
    claimed, more than the cap.  With a page cap of -1 the set stays
    empty, and its size, 0, is above the cap. *)
Lemma page_cap_is_exceeded :
  let env := site [("https://a.test/", ["https://a.test/x"]); ("https://a.test/x", [])] in
  (exists v tr,
     takeScreenshots_js env
       (options "https://a.test/" "1920x1080" (Int 2) (Num (3 # 2)) false)
       3 "https://a.test/" ∅ 1 = Some (v, tr, Normal) /\
     claimed tr = ["https://a.test/"; "https://a.test/x"] /\ size v = 2%nat) /\
  (exists v,
     takeScreenshots_js env
       (options "https://a.test/" "1920x1080" (Int 2) (Int (-1)) false)
       3 "https://a.test/" ∅ 1 = Some (v, [EvCall "https://a.test/" 1], Normal) /\
     size v = 0%nat).
Proof.
  split.
  - eexists _, _. split; [vm_compute; reflexivity|]. split; vm_compute; reflexivity.
  - eexists. split; vm_compute; reflexivity.
Qed.

(** ** A failed render keeps its place in the set *)

Lemma takeScreenshots_js_keeps env argv fuel u w d w' tr c t :
  t ∈ w -> u ∉ w ->
  takeScreenshots_js env argv fuel u w d = Some (w', tr, c) ->
  t ∈ w' /\ (t ∉ claimed tr) /\ (t ∉ saved tr).
Proof.
  intros Ht Hu Hrun.
  destruct (takeScreenshots_js_claims _ _ _ _ _ _ _ _ _ Hrun) as [Hw [_ Hfresh]]; [done|].
  pose proof (takeScreenshots_js_saved _ _ _ _ _ _ _ _ _ Hrun) as Hsub.
  assert (Hc : t ∉ claimed tr) by (intros Hin; by apply Hfresh in Hin).
  split; [set_solver|]. split; [done|].
  intros Hin. apply Hc. by eapply elem_of_sublist.
Qed.

Lemma for_of_js_keeps env argv fuel d links : forall w w' tr c t,
  t ∈ w ->
  for_of (fun link w0 => takeScreenshots_js env argv fuel link w0 d) links w
  = Some (w', tr, c) ->
  t ∈ w' /\ (t ∉ claimed tr) /\ (t ∉ saved tr).
Proof.
  induction links as [|link rest IH]; intros w w' tr c t Ht; simpl.
  - intros [= <- <- <-]. split; [done|]. split; apply not_elem_of_nil.
  - destruct (decide (link ∈ w)) as [Hin|Hout].
    + rewrite bool_decide_eq_true_2 by done. by apply IH.
    + rewrite bool_decide_eq_false_2 by done.
      destruct (takeScreenshots_js env argv fuel link w d)
        as [[[w1 tr1] c1]|] eqn:Hcall; [|discriminate].
      destruct (takeScreenshots_js_keeps _ _ _ _ _ _ _ _ _ t Ht Hout Hcall)
        as (Hw1 & Hc1 & Hs1).
      destruct c1.
      * destruct (for_of _ rest w1) as [[[w2 tr2] c2]|] eqn:Hrest; [|discriminate].
        intros [= <- <- <-]. destruct (IH _ _ _ _ t Hw1 Hrest) as (Hw2 & Hc2 & Hs2).
        split; [done|]. rewrite claimed_app, saved_app, !elem_of_app. tauto.
      * intros [= <- <- <-]. done.
Qed.

(** C9: a call that passes the guard on a URL which is not yet in
    [visited], and whose render fails, returns with the URL in [visited]
    and no capture: the URL was added before the render was tried.  The
    set is one larger, so the URL counts for the test of the page cap in
    every later call; a link to it is passed over by every later loop; and
    nothing that runs later, a call on another URL or a loop over links,
    takes it out of [visited], claims it or captures it. *)
Theorem failed_render_keeps_its_place env argv t v d :
  limit_reached_js argv v d = false -> t ∉ v -> render env t = RenderFailed ->
  (forall fuel,
     takeScreenshots_js env argv (S fuel) t v d
     = Some ({[t]} ∪ v, [EvCall t d; EvClaim t d; EvError t d], Normal)) /\
  size ({[t]} ∪ v) = S (size v) /\
  (forall m fuel u d', argv_maxPages argv = Int m -> m <= Z.of_nat (size v) + 1 ->
     takeScreenshots_js env argv (S fuel) u ({[t]} ∪ v) d'
     = Some ({[t]} ∪ v, [EvCall u d'], Normal)) /\
  (forall call rest (w : gset string), {[t]} ∪ v ⊆ w ->
     for_of call (t :: rest) w = for_of call rest w) /\
  (forall fuel u w d' w' tr c, {[t]} ∪ v ⊆ w -> u ∉ w ->
     takeScreenshots_js env argv fuel u w d' = Some (w', tr, c) ->
     t ∈ w' /\ (t ∉ claimed tr) /\ (t ∉ saved tr)) /\
  (forall fuel links w d' w' tr c, {[t]} ∪ v ⊆ w ->
     for_of (fun link w0 => takeScreenshots_js env argv fuel link w0 d') links w
     = Some (w', tr, c) ->
     t ∈ w' /\ (t ∉ claimed tr) /\ (t ∉ saved tr)).
Proof.
  intros Hlim Hout Hfail.
  assert (Hsize : size ({[t]} ∪ v) = S (size v)).
  { rewrite size_union by set_solver. by rewrite size_singleton. }
  split; [|split; [done|split; [|split; [|split]]]].
  - intros fuel. rewrite takeScreenshots_js_task; [|done|].
    + by rewrite (visit_js_render_failed env argv t d Hfail).
    + intros links. by rewrite (visit_js_render_failed env argv t d Hfail).
  - intros m fuel u d' HM Hm. apply takeScreenshots_js_limit.
    unfold limit_reached_js. rewrite HM, js_ge_int, Hsize.
    apply orb_true_iff. left. apply negb_true_iff, Z.ltb_ge. lia.
  - intros call rest w Hw. simpl. rewrite bool_decide_eq_true_2; [done|set_solver].
  - intros fuel u w d' w' tr c Hw Hu. apply takeScreenshots_js_keeps; [set_solver|done].
  - intros fuel links w d' w' tr c Hw. apply for_of_js_keeps. set_solver.
Qed.

(** A page whose render fails, as the first link of the seed: with a
    page cap of 2 the failed page takes the second place, and the page
    after it is never tried. *)
Lemma failed_render_keeps_its_place_example :
  let env := {| setViewport := numeric_viewport;
                render := fun u => if String.eqb u "https://a.test/x" then RenderFailed
                                   else Captured (Some []) |} in
  let argv := options "https://a.test/" "1920x1080" (Int 2) (Int 2) false in
  let v : gset string := {["https://a.test/"]} in
  limit_reached_js argv v 2 = false /\
  takeScreenshots_js env argv 1 "https://a.test/x" v 2
  = Some ({["https://a.test/x"]} ∪ v,
          [EvCall "https://a.test/x" 2; EvClaim "https://a.test/x" 2;
           EvError "https://a.test/x" 2], Normal) /\
  takeScreenshots_js env argv 1 "https://a.test/y" ({["https://a.test/x"]} ∪ v) 2
  = Some ({["https://a.test/x"]} ∪ v, [EvCall "https://a.test/y" 2], Normal).
Proof.
  intros env argv v.
  assert (Hlim : limit_reached_js argv v 2 = false) by reflexivity.
  assert (Hout : "https://a.test/x" ∉ v) by (by vm_compute).
  assert (Hfail : render env "https://a.test/x" = RenderFailed) by reflexivity.
  destruct (failed_render_keeps_its_place env argv "https://a.test/x" v 2 Hlim Hout Hfail)
    as (Hrun & _ & Hcap & _).
  split; [exact Hlim|]. split; [exact (Hrun 0%nat)|].
  apply (Hcap 2 0%nat "https://a.test/y" 2 eq_refl). vm_compute. discriminate.
Defined.

(** ** A configuration that is not valid *)




(** ** Where the claimed URLs come from *)

Lemma takeScreenshots_js_parent env argv fuel t v d v' tr c :
  takeScreenshots_js env argv fuel t v d = Some (v', tr, c) ->
  forall u d', EvClaim u d' ∈ tr ->
    (u = t /\ d' = d) \/
    exists p hrefs links,
      EvLinks p (d' - 1) links ∈ tr /\ render env p = Captured (Some hrefs) /\
      u ∈ links /\ u ∈ hrefs /\ Js.startsWith u "http" = true.
Proof.
  apply (crawl_js_ind env argv
    (fun t v d v' tr => forall u d', EvClaim u d' ∈ tr ->
       (u = t /\ d' = d) \/
       exists p hrefs links,
         EvLinks p (d' - 1) links ∈ tr /\ render env p = Captured (Some hrefs) /\
         u ∈ links /\ u ∈ hrefs /\ Js.startsWith u "http" = true)
    (fun d links v v' tr => forall u d', EvClaim u d' ∈ tr ->
       (u ∈ links /\ d' = d) \/
       exists p hrefs links',
         EvLinks p (d' - 1) links' ∈ tr /\ render env p = Captured (Some hrefs) /\
         u ∈ links' /\ u ∈ hrefs /\ Js.startsWith u "http" = true)); clear fuel t v d v' tr c.
  - intros t v d _ u d' Hin. apply list_elem_of_singleton in Hin. discriminate.
  - intros t v d _ _ u d' Hin. left.
    destruct (visit_js env argv t d) as [[]| |links]; simpl in Hin;
      repeat (apply elem_of_cons in Hin as [Hin|Hin]; [by inversion Hin|]);
      by apply not_elem_of_nil in Hin.
  - intros t v d links v' tr _ Hv HQ u d' Hin.
    apply elem_of_app in Hin as [Hin|Hin].
    + left. simpl in Hin.
      repeat (apply elem_of_cons in Hin as [Hin|Hin]; [by inversion Hin|]).
      by apply not_elem_of_nil in Hin.
    + right. destruct (HQ _ _ Hin) as [[Hu ->]|(p & hrefs & links' & Hp & Hr & Hu)].
      * apply visit_js_expand in Hv as (_ & base & hrefs & _ & Hr & ->).
        exists t, hrefs, (findLinks hrefs base (argv_followExternal argv)).
        split; [|split; [done|split; [done|]]].
        { apply elem_of_app. left.
          replace (d + 1 - 1) with d by lia. simpl. do 3 right. left. }
        apply elem_of_findLinks in Hu. tauto.
      * exists p, hrefs, links'. split; [|done]. apply elem_of_app. by right.
  - intros d v u d' Hin. by apply not_elem_of_nil in Hin.
  - intros d link rest v v' tr _ HQ u d' Hin.
    destruct (HQ _ _ Hin) as [[Hu ->]|?]; [left|by right]. split; [by right|done].
  - intros d link rest v v1 tr1 v2 tr2 _ HP HQ u d' Hin.
    apply elem_of_app in Hin as [Hin|Hin].
    + destruct (HP _ _ Hin) as [[-> ->]|(p & hrefs & links' & Hp & Hu)].
      * left. split; [by left|done].
      * right. exists p, hrefs, links'. split; [|done]. apply elem_of_app. by left.
    + destruct (HQ _ _ Hin) as [[Hu ->]|(p & hrefs & links' & Hp & Hu)].
      * left. split; [by right|done].
      * right. exists p, hrefs, links'. split; [|done]. apply elem_of_app. by right.
Qed.

(** X4: a run only claims the seed and links of pages it captured: a
    claimed URL other than the seed at depth 1 is, one level up, one of
    the links that [findLinks] returned for a page that was rendered; it
    is the [href] of an anchor of that page and starts with [http]. *)
Theorem claims_come_from_links env argv fuel seed v tr c :
  takeScreenshots_js env argv fuel seed ∅ 1 = Some (v, tr, c) ->
  forall u d, EvClaim u d ∈ tr ->
    (u = seed /\ d = 1) \/
    exists p hrefs links,
      EvLinks p (d - 1) links ∈ tr /\ render env p = Captured (Some hrefs) /\
      u ∈ links /\ u ∈ hrefs /\ Js.startsWith u "http" = true.
Proof. apply takeScreenshots_js_parent. Qed.

(** ** A call on any set *)

(** X11: [takeScreenshots] on a [visited] set that is not empty, as its
    signature allows.  When the depth can be counted up to, with fuel above
    the depth to go the call returns normally; [visited] only grows, by the
    URLs the call claims; when the target is not in [visited], no URL of
    [visited] is claimed; and when the page cap is a whole number, the new
    set has at most that many URLs, unless the old one had more. *)
Theorem takeScreenshots_on_any_set env argv fuel t (v : gset string) d :
  countable_depth (argv_depth argv) ->
  (depth_left (argv_depth argv) d < fuel)%nat ->
  exists v' tr,
    takeScreenshots_js env argv fuel t v d = Some (v', tr, Normal) /\
    v ⊆ v' /\
    v' = list_to_set (claimed tr) ∪ v /\
    (t ∉ v -> NoDup (claimed tr) /\ forall u, u ∈ claimed tr -> u ∉ v) /\
    (forall m, argv_maxPages argv = Int m ->
       Z.of_nat (size v') <= Z.max (Z.of_nat (size v)) m).
Proof.
  intros Hfin%countable_depth_finite Hfuel.
  destruct (takeScreenshots_js_total_depth env argv fuel t v d Hfin Hfuel)
    as (v' & tr & Hrun).
  exists v', tr. split; [done|].
  destruct (takeScreenshots_js_claims _ _ _ _ _ _ _ _ _ Hrun) as [Hv Hfresh].
  split; [set_solver|]. split; [done|]. split; [done|].
  intros m HM. by eapply takeScreenshots_js_cap.
Qed.

Lemma takeScreenshots_on_any_set_example :
  let env := site [("https://a.test/", ["https://a.test/old"; "https://a.test/new"]);
                   ("https://a.test/new", [])] in
  let argv := options "https://a.test/" "1920x1080" (Num (5 # 2)) (Int 10) false in
  let v : gset string := {["https://a.test/old"]} in
  countable_depth (argv_depth argv) /\
  (depth_left (argv_depth argv) 1 < 3)%nat /\
  exists v' tr,
    takeScreenshots_js env argv 3 "https://a.test/" v 1 = Some (v', tr, Normal) /\
    v ⊆ v' /\
    Z.of_nat (size v') <= Z.max (Z.of_nat (size v)) 10.
Proof.
  intros env argv v.
  assert (Hfin : countable_depth (argv_depth argv)) by (vm_compute; discriminate).
  assert (Hfuel : (depth_left (argv_depth argv) 1 < 3)%nat) by (vm_compute; lia).
  split; [exact Hfin|]. split; [exact Hfuel|].
  destruct (takeScreenshots_on_any_set env argv 3 "https://a.test/" v 1 Hfin Hfuel)
    as (v' & tr & Hrun & Hsub & _ & _ & Hcap).
  exists v', tr. split; [exact Hrun|]. split; [exact Hsub|exact (Hcap 10 eq_refl)].
Defined.

Lemma claims_come_from_links_example :
  let env := site [("https://a.test/", ["https://a.test/x"; "mailto:me@a.test"]);
                   ("https://a.test/x", [])] in
  let argv := options "https://a.test/" "1920x1080" (Int 2) (Int 5) false in
  let tr := [EvCall "https://a.test/" 1; EvClaim "https://a.test/" 1;
             EvSaved "https://a.test/" 1;
             EvLinks "https://a.test/" 1 ["https://a.test/x"];
             EvCall "https://a.test/x" 2; EvClaim "https://a.test/x" 2;
             EvSaved "https://a.test/x" 2] in
  takeScreenshots_js env argv 2 "https://a.test/" ∅ 1
  = Some ({["https://a.test/x"]} ∪ ({["https://a.test/"]} ∪ ∅), tr, Normal) /\
  EvClaim "https://a.test/x" 2 ∈ tr /\
  (("https://a.test/x" = "https://a.test/" /\ 2 = 1) \/
   exists p hrefs links,
     EvLinks p (2 - 1) links ∈ tr /\ render env p = Captured (Some hrefs) /\
     "https://a.test/x" ∈ links /\ "https://a.test/x" ∈ hrefs /\
     Js.startsWith "https://a.test/x" "http" = true).
Proof.
  intros env argv tr.
  assert (Hrun : takeScreenshots_js env argv 2 "https://a.test/" ∅ 1
                 = Some ({["https://a.test/x"]} ∪ ({["https://a.test/"]} ∪ ∅), tr, Normal))
    by reflexivity.
  assert (Hin : EvClaim "https://a.test/x" 2 ∈ tr) by (do 5 right; left).
  split; [exact Hrun|]. split; [exact Hin|].
  exact (claims_come_from_links env argv 2 "https://a.test/" _ tr Normal Hrun
           "https://a.test/x" 2 Hin).
Defined.
